(** * Consumer segmentation: parameter search, partition evaluation,
      label normalisation and price cleaning

    A shallow embedding of the algorithmic core of the repository:
    - [main.py]: [normalize_cluster_labels];
    - [src/cluster_engine.py]: [find_optimal_k], [apply_kmeans],
      [find_optimal_dbscan_params], [apply_dbscan], [calculate_metrics];
    - [src/data_preprocessor.py]: [clean_price], [clean_discount],
      [extract_main_category], [prepare_features].

    Conventions.
    - numpy integer arrays are [list Z]; arrays that are shared between caller
      and callee live in a store ([gmap] from locations to contents);
    - Python dictionaries are [gmap string _];
    - a Python call that may raise returns [option] ([None] = exception);
    - the scikit-learn estimators and scores are an interface ([Sklearn])
      whose operations the search code only calls; so are the pandas and
      numpy operations of [prepare_features] ([Frames]), of which the
      variance and the scaler also have a reading on rationals
      ([ExactFrames]);
    - a floating-point score or radius is represented by the rational it
      denotes ([Q]); the infinite and not-a-number floats are constructors of
      [pyfloat]. *)

From stdpp Require Import base numbers option list sorting gmap strings.
From Stdlib Require Import QArith Qround Floats Lqa.

Set Warnings "-inexact-float".

Local Open Scope Z_scope.

(** Order and equality of rationals are decidable. *)
#[global] Instance Qlt_decision (x y : Q) : Decision (x < y)%Q.
Proof. destruct (Qlt_le_dec x y) as [Hlt|Hle]; [left | right]; [done | by apply Qle_not_lt]. Defined.
#[global] Instance Qeq_decision (x y : Q) : Decision (x == y)%Q := Qeq_dec x y.

(** ** Small error/state monad for code working on the array store *)

Definition loc := nat.
Abbreviation store := (gmap loc (list Z)).

Definition M (A : Type) : Type := store → option (A * store).

Definition ret {A} (a : A) : M A := λ h, Some (a, h).
Definition bind {A B} (m : M A) (f : A → M B) : M B :=
  λ h, match m h with
       | Some (a, h') => f a h'
       | None => None
       end.

Declare Scope py_scope.
Delimit Scope py_scope with py.
Notation "x ⟵ m ; k" := (bind m (λ x, k))
  (at level 100, m at next level, right associativity) : py_scope.
Notation "m ;;; k" := (bind m (λ _, k))
  (at level 100, right associativity) : py_scope.

(** [len(a)] and Python's [range(a, b)]. *)
Definition len {A} (a : list A) : Z := Z.of_nat (length a).
Definition py_range (a b : Z) : list Z := seqZ a (b - a).

(** ** numpy primitives used by the sources *)

Module Np.

(** [np.unique(a)]: the sorted distinct values of [a]. *)
Definition unique (a : list Z) : list Z := merge_sort Z.le (remove_dups a).

(** [a == v] and [a != v]: element-wise comparison, a boolean mask. *)
Definition eq_mask (a : list Z) (v : Z) : list bool :=
  (λ x, bool_decide (x = v)) <$> a.
Definition ne_mask (a : list Z) (v : Z) : list bool :=
  (λ x, bool_decide (x ≠ v)) <$> a.

(** [mask.any()] and [mask.sum()]. *)
Definition any (mask : list bool) : bool := existsb id mask.
Definition sum (mask : list bool) : Z := Z.of_nat (length (filter (λ b, b = true) mask)).

(** [a[mask]]: boolean-mask selection; numpy raises IndexError when the
    mask and the array do not have the same length. *)
Fixpoint select {A} (a : list A) (mask : list bool) : option (list A) :=
  match a, mask with
  | [], [] => Some []
  | x :: a', b :: mask' =>
      r ← select a' mask'; Some (if b : bool then x :: r else r)
  | _, _ => None
  end.

(** The contents of [a] after [a[mask] = v]. *)
Definition fill (a : list Z) (mask : list bool) (v : Z) : list Z :=
  zip_with (λ x (b : bool), if b then v else x) a mask.

(** Store-level operations: reading an array, [a.copy()], [a[mask] = v]. *)
Definition read (a : loc) : M (list Z) :=
  λ h, match h !! a with Some arr => Some (arr, h) | None => None end.

Definition copy (a : loc) : M loc :=
  λ h, match h !! a with
       | Some arr => let l := fresh (dom h) in Some (l, <[l := arr]> h)
       | None => None
       end.

Definition masked_store (a : loc) (mask : list bool) (v : Z) : M unit :=
  λ h, match h !! a with
       | Some arr =>
           if decide (length arr = length mask)
           then Some (tt, <[a := fill arr mask v]> h)
           else None
       | None => None
       end.

End Np.

(** ** main.py: normalize_cluster_labels *)

Local Open Scope py_scope.

(** The [for old_label in sorted(valid_labels)] loop.  The mask is computed
    from the argument array [labels] at every iteration; the writes go to
    [normalized_labels].  [label_mapping] is the dictionary the source fills
    alongside. *)
Fixpoint relabel_loop (labels normalized_labels : loc) (olds : list Z)
    (label_mapping : gmap Z Z) (new_label : Z) : M (gmap Z Z * Z) :=
  match olds with
  | [] => ret (label_mapping, new_label)
  | old_label :: rest =>
      arr ⟵ Np.read labels;
      Np.masked_store normalized_labels (Np.eq_mask arr old_label) new_label ;;;
      relabel_loop labels normalized_labels rest
        (<[old_label := new_label]> label_mapping) (new_label + 1)
  end.

Definition normalize_cluster_labels (labels : loc) : M loc :=
  arr ⟵ Np.read labels;
  let unique_labels := Np.unique arr in
  normalized_labels ⟵ Np.copy labels;
  let valid_labels := filter (λ v, v ≠ -1) unique_labels in
  r ⟵ relabel_loop labels normalized_labels (merge_sort Z.le valid_labels) ∅ 1;
  let new_label := r.2 in
  arr' ⟵ Np.read labels;
  let noise_mask := Np.eq_mask arr' (-1) in
  if Np.any noise_mask
  then Np.masked_store normalized_labels noise_mask new_label ;;; ret normalized_labels
  else ret normalized_labels.

(** Running the normaliser on a store holding one array at location 0, and
    reading the result back. *)
Definition normalize_list (arr : list Z) : option (list Z) :=
  match normalize_cluster_labels 0%nat {[ 0%nat := arr ]} with
  | Some (l, h) => h !! l
  | None => None
  end.

(** What the specification promises for a label [x] of the array [arr]:
    the outlier sentinel goes last, any other label gets its rank among the
    distinct non-outlier labels. *)
Definition real_labels (arr : list Z) : gset Z :=
  filter (λ v, v ≠ -1) (list_to_set arr : gset Z).

Definition canonical_label (arr : list Z) (x : Z) : Z :=
  if decide (x = -1)
  then Z.of_nat (size (real_labels arr)) + 1
  else Z.of_nat (size (filter (λ v, v < x) (real_labels arr))) + 1.

(** The contents of [normalized_labels] after the loop has gone through
    [olds], starting from contents [cur] and label [new_label]. *)
Fixpoint relabel_list (arr : list Z) (olds : list Z) (new_label : Z)
    (cur : list Z) : list Z :=
  match olds with
  | [] => cur
  | old_label :: rest =>
      relabel_list arr rest (new_label + 1)
        (Np.fill cur (Np.eq_mask arr old_label) new_label)
  end.

(** The labels the loop goes through. *)
Definition loop_labels (arr : list Z) : list Z :=
  merge_sort Z.le (filter (λ v, v ≠ -1) (Np.unique arr)).

(** The array written by a run of the normaliser. *)
Definition normalized_contents (arr : list Z) : list Z :=
  let r := relabel_list arr (loop_labels arr) 1 arr in
  let new_label := 1 + len (loop_labels arr) in
  if Np.any (Np.eq_mask arr (-1))
  then Np.fill r (Np.eq_mask arr (-1)) new_label
  else r.

(** ** src/cluster_engine.py *)

(** Python floats that may also be infinite or not-a-number. *)
Inductive pyfloat : Type :=
  | Fin (q : Q)
  | PosInf
  | NegInf
  | NaN.

(** Values stored in the metrics dictionary. *)
Inductive pyval : Type :=
  | VInt (z : Z)
  | VFloat (f : pyfloat).

Definition sample := list Q.
Definition matrix := list sample.

(** The scikit-learn operations the engine calls.  [None] is a raised
    exception.
    - [KMeans_fit_predict k X] is
      [KMeans(n_clusters=k, random_state=42, n_init=10).fit_predict(X)];
    - [DBSCAN_fit_predict eps min_samples X] is
      [DBSCAN(eps=eps, min_samples=min_samples).fit_predict(X)]. *)
Class Sklearn : Type := {
  KMeans_fit_predict : Z → matrix → option (list Z);
  DBSCAN_fit_predict : Q → Z → matrix → option (list Z);
  silhouette_score : matrix → list Z → option Q;
  davies_bouldin_score : matrix → list Z → option pyfloat;
  calinski_harabasz_score : matrix → list Z → option pyfloat
}.

(** [np.arange(start, stop, step)]: [ceil((stop - start) / step)] values
    [start + i * step], the stop value excluded. *)
Definition np_arange (start stop step : Q) : list Q :=
  (λ i, Qred (start + inject_Z i * step)) <$> seqZ 0 (Qceiling ((stop - start) / step)).

(** [max(l)] on a non-empty list and [np.argmax(l)] (first index of the
    largest element). *)
Definition py_max (x : Q) (l : list Q) : Q :=
  foldl (λ m y, if Qlt_le_dec m y then y else m) x l.

Fixpoint argmax_from (i best_i : nat) (best : Q) (l : list Q) : nat :=
  match l with
  | [] => best_i
  | y :: l' =>
      if Qlt_le_dec best y then argmax_from (S i) i y l'
      else argmax_from (S i) best_i best l'
  end.

Definition np_argmax (l : list Q) : nat :=
  match l with
  | [] => 0%nat
  | x :: l' => argmax_from 1 0 x l'
  end.

(** Counting clusters and outliers of a label assignment, as both
    [find_optimal_dbscan_params] and [calculate_metrics] do. *)
Definition count_clusters (labels : list Z) : Z :=
  let unique_labels : gset Z := list_to_set labels in
  Z.of_nat (size unique_labels) - (if decide (-1 ∈ unique_labels) then 1 else 0).

Definition count_noise (labels : list Z) : Z :=
  len (filter (λ x, x = -1) labels).

(** The order in which the search compares combinations: by score, then by
    number of clusters. *)
Definition lex_le (c1 c2 : Q * Z) : Prop :=
  (c1.1 < c2.1)%Q ∨ ((c1.1 == c2.1)%Q ∧ c1.2 ≤ c2.2).

Section engine.
Context `{Sklearn}.

(** *** find_optimal_k *)

Definition k_values (k_range : Z * Z) (X : matrix) : list Z :=
  py_range k_range.1 (Z.min (k_range.2 + 1) (len X `div` 2)).

(** One iteration of the candidate loop: the score appended for [k]. *)
Definition kmeans_candidate_score (X : matrix) (k : Z) : Q :=
  match KMeans_fit_predict k X with
  | Some labels =>
      if decide (size (list_to_set labels : gset Z) < 2)%nat then (-1)%Q
      else match silhouette_score X labels with
           | Some score => score
           | None => (-1)%Q
           end
  | None => (-1)%Q
  end.

Definition silhouette_scores (k_range : Z * Z) (X : matrix) : list Q :=
  kmeans_candidate_score X <$> k_values k_range X.

(** Lines 44-50: the choice among the recorded scores.  [None] would be an
    IndexError of [k_values[...]]. *)
Definition select_k (k_range : Z * Z) (ks : list Z) (scores : list Q) : option Z :=
  match scores with
  | [] => Some k_range.1
  | s :: rest =>
      if Qlt_le_dec (py_max s rest) 0 then Some k_range.1
      else ks !! np_argmax scores
  end.

Definition find_optimal_k (X : matrix) (k_range : Z * Z) : option Z :=
  select_k k_range (k_values k_range X) (silhouette_scores k_range X).

Definition default_k_range : Z * Z := (2, 10).

Definition apply_kmeans (X : matrix) (n_clusters : option Z)
    : option (list Z * Z) :=
  n ← (match n_clusters with
       | None => find_optimal_k X default_k_range
       | Some n => Some n
       end);
  labels ← KMeans_fit_predict n X;
  Some (labels, n).

(** *** find_optimal_dbscan_params *)

Record dbscan_best : Type := {
  best_score : Q;
  best_eps : Q;
  best_min_samples : Z;
  best_n_clusters : Z
}.

Definition dbscan_init : dbscan_best :=
  {| best_score := (-1)%Q; best_eps := 0.5%Q;
     best_min_samples := 5; best_n_clusters := 0 |}.

Definition eps_range : list Q := np_arange 0.3 2.0 0.1.
Definition min_samples_range : list Z := [3; 5; 7; 10; 15].

Definition dbscan_noise_ratio (labels : list Z) : Q :=
  if decide (len labels > 0)
  then (inject_Z (count_noise labels) / inject_Z (len labels))%Q
  else 1%Q.

(** Lines 82-101: what one parameter combination yields.  The outer
    [None] is an exception of the DBSCAN call (not caught by the source);
    [Some None] is a combination that is not scored (not viable, or the
    scoring raised); [Some (Some (score, n_clusters))] is a scored one. *)
Definition dbscan_candidate (X : matrix) (eps : Q) (min_samples : Z)
    : option (option (Q * Z)) :=
  labels ← DBSCAN_fit_predict eps min_samples X;
  let n_clusters := count_clusters labels in
  let noise_ratio := dbscan_noise_ratio labels in
  if bool_decide (n_clusters >= 2) && bool_decide (noise_ratio < 0.5)%Q then
    let valid_mask := Np.ne_mask labels (-1) in
    if decide (Np.sum valid_mask >= n_clusters * 2) then
      match (Xv ← Np.select X valid_mask;
             lv ← Np.select labels valid_mask;
             silhouette_score Xv lv) with
      | Some score => Some (Some (score, n_clusters))
      | None => Some None
      end
    else Some None
  else Some None.

(** Lines 104-108: the comparison against the best so far. *)
Definition dbscan_keep (st : dbscan_best) (eps : Q) (min_samples : Z)
    (c : Q * Z) : dbscan_best :=
  let '(score, n_clusters) := c in
  if bool_decide (best_score st < score)%Q
     || (bool_decide (score == best_score st)%Q
         && bool_decide (n_clusters > best_n_clusters st))
  then {| best_score := score; best_eps := eps;
          best_min_samples := min_samples; best_n_clusters := n_clusters |}
  else st.

Definition dbscan_step (X : matrix) (st : dbscan_best) (eps : Q)
    (min_samples : Z) : option dbscan_best :=
  c ← dbscan_candidate X eps min_samples;
  Some (match c with
        | Some sc => dbscan_keep st eps min_samples sc
        | None => st
        end).

Fixpoint dbscan_inner (X : matrix) (eps : Q) (mss : list Z)
    (st : dbscan_best) : option dbscan_best :=
  match mss with
  | [] => Some st
  | min_samples :: mss' =>
      st' ← dbscan_step X st eps min_samples;
      dbscan_inner X eps mss' st'
  end.

Fixpoint dbscan_outer (X : matrix) (epss : list Q) (mss : list Z)
    (st : dbscan_best) : option dbscan_best :=
  match epss with
  | [] => Some st
  | eps :: epss' =>
      st' ← dbscan_inner X eps mss st;
      dbscan_outer X epss' mss st'
  end.

Definition dbscan_search (X : matrix) : option dbscan_best :=
  dbscan_outer X eps_range min_samples_range dbscan_init.

Definition best_key (st : dbscan_best) : Q * Z :=
  (best_score st, best_n_clusters st).

(** Where a kept combination comes from. *)
Definition kept_from (X : matrix) (epss : list Q) (mss : list Z)
    (st : dbscan_best) : Prop :=
  ∃ eps ms, eps ∈ epss ∧ ms ∈ mss
    ∧ dbscan_candidate X eps ms = Some (Some (best_key st))
    ∧ best_eps st = eps ∧ best_min_samples st = ms.

(** One step of the nested loops seen as a single pass over the pairs of
    the grid, radius-major. *)
Definition dbscan_visit (X : matrix) (acc : option dbscan_best) (p : Q * Z)
    : option dbscan_best :=
  st ← acc; dbscan_step X st p.1 p.2.

Definition find_optimal_dbscan_params (X : matrix) : option (Q * Z) :=
  st ← dbscan_search X;
  Some (if bool_decide (best_score st == -1)%Q
        then (0.8%Q, 5)
        else (best_eps st, best_min_samples st)).

Definition apply_dbscan (X : matrix) (eps : option Q) (min_samples : option Z)
    : option (list Z * (Q * Z)) :=
  p ← (match eps, min_samples with
       | Some e, Some m => Some (e, m)
       | _, _ => find_optimal_dbscan_params X
       end);
  labels ← DBSCAN_fit_predict p.1 p.2 X;
  Some (labels, p).

(** *** calculate_metrics *)

Definition metrics_noise_ratio (labels : list Z) : pyval :=
  if decide (len labels > 0)
  then VFloat (Fin (Qred (inject_Z (count_noise labels) / inject_Z (len labels))))
  else VInt 0.

Definition calculate_metrics (X : matrix) (labels : list Z) : gmap string pyval :=
  let metrics : gmap string pyval := ∅ in
  let n_clusters := count_clusters labels in
  let n_noise := count_noise labels in
  let metrics := <["n_clusters" := VInt n_clusters]> metrics in
  let metrics := <["n_noise" := VInt n_noise]> metrics in
  let metrics := <["noise_ratio" := metrics_noise_ratio labels]> metrics in
  let valid_mask := Np.ne_mask labels (-1) in
  let n_valid := Np.sum valid_mask in
  if bool_decide (n_clusters > 1) && bool_decide (n_valid >= n_clusters * 2) then
    let Xv := Np.select X valid_mask in
    let lv := Np.select labels valid_mask in
    let metrics :=
      <["silhouette_score" :=
          match (x ← Xv; l ← lv; silhouette_score x l) with
          | Some s => VFloat (Fin s)
          | None => VFloat (Fin 0)
          end]> metrics in
    let metrics :=
      <["davies_bouldin_score" :=
          match (x ← Xv; l ← lv; davies_bouldin_score x l) with
          | Some s => VFloat s
          | None => VFloat PosInf
          end]> metrics in
    let metrics :=
      <["calinski_harabasz_score" :=
          match (x ← Xv; l ← lv; calinski_harabasz_score x l) with
          | Some s => VFloat s
          | None => VFloat (Fin 0)
          end]> metrics in
    metrics
  else
    let metrics := <["silhouette_score" := VFloat (Fin 0)]> metrics in
    let metrics := <["davies_bouldin_score" := VFloat PosInf]> metrics in
    let metrics := <["calinski_harabasz_score" := VFloat (Fin 0)]> metrics in
    metrics.

End engine.

(** The rows of [X] whose label is not the outlier sentinel. *)
Definition valid_rows {A} (X : list A) (labels : list Z) : list A :=
  (filter (λ p, p.2 ≠ -1) (zip X labels)).*1.

(** The six fields of a metrics record. *)
Definition metric_names : gset string :=
  {[ "n_clusters"; "n_noise"; "noise_ratio"; "silhouette_score";
     "davies_bouldin_score"; "calinski_harabasz_score" ]}.

(** Two stand-ins for the scikit-learn interface, to run the engine on small
    inputs: one where DBSCAN calls every row an outlier and every other call
    raises, one that deals the rows round-robin into groups and scores every
    partition 0.5. *)
Definition sklearn_all_noise : Sklearn :=
  {| KMeans_fit_predict := λ _ _, None;
     DBSCAN_fit_predict := λ _ _ X, Some ((λ _, -1) <$> X);
     silhouette_score := λ _ _, None;
     davies_bouldin_score := λ _ _, None;
     calinski_harabasz_score := λ _ _, None |}.

Definition sklearn_round_robin : Sklearn :=
  {| KMeans_fit_predict := λ k X, Some (imap (λ i _, Z.of_nat i `mod` k) X);
     DBSCAN_fit_predict := λ _ _ X, Some (imap (λ i _, Z.of_nat i `mod` 2) X);
     silhouette_score := λ _ _, Some 0.5%Q;
     davies_bouldin_score := λ _ _, Some (Fin 1);
     calinski_harabasz_score := λ _ _, Some (Fin 1) |}.


(** A feature matrix with [n] rows. *)
Definition rows (n : nat) : matrix := replicate n [0%Q].

(** ** src/data_preprocessor.py: clean_price *)

(** Python strings are sequences of Unicode code points. *)
Definition char := N.
Definition pystr := list char.

Definition rupee : char := 8377%N.  (* U+20B9 *)
Definition comma : char := 44%N.
Definition dot : char := 46%N.

(** The two character classes the function depends on: the decimal digits
    ([\d] of [re], the digits [float] accepts) with their values, and the
    whitespace removed by [str.strip].  The tables belong to the Unicode
    database; the facts used about them are recorded as laws. *)
Class Unicode : Type := {
  digit_value : char → option N;
  is_space : char → bool;
  digit_ascii : ∀ c, (48 ≤ c ≤ 57)%N → digit_value c = Some (c - 48)%N;
  digit_rupee : digit_value rupee = None;
  digit_comma : digit_value comma = None;
  digit_dot : digit_value dot = None;
  space_dot : is_space dot = false;
  space_digit : ∀ c, is_Some (digit_value c) → is_space c = false
}.

Section clean_price.
Context `{Unicode}.
(** [F] is the type of binary64 floats and [fl q] the float nearest to the
    rational [q]. *)
Context {F : Type} (fl : Q → F).

Definition is_digit (c : char) : bool :=
  match digit_value c with Some _ => true | None => false end.

(** [s.replace(c, '')] for a one-character pattern. *)
Definition str_remove (c : char) (s : pystr) : pystr :=
  filter (λ x, x ≠ c) s.

(** [s.strip()]. *)
Fixpoint lstrip (s : pystr) : pystr :=
  match s with
  | c :: s' => if is_space c then lstrip s' else s
  | [] => []
  end.
Definition strip (s : pystr) : pystr := reverse (lstrip (reverse (lstrip s))).

(** The longest prefix of digits, and what follows it. *)
Fixpoint take_digits (s : pystr) : pystr * pystr :=
  match s with
  | c :: s' =>
      if is_digit c then let '(d, r) := take_digits s' in (c :: d, r)
      else ([], s)
  | [] => ([], [])
  end.

(** One attempt to match the pattern of digits, an optional dot and more
    digits at the head of [s]: the matched text and the rest. *)
Definition match_number (s : pystr) : option (pystr * pystr) :=
  match take_digits s with
  | ([], _) => None
  | (d1, []) => Some (d1, [])
  | (d1, c :: r) =>
      if decide (c = dot)
      then let '(d2, r') := take_digits r in Some (d1 ++ dot :: d2, r')
      else Some (d1, c :: r)
  end.

(** [re.findall] for that pattern: all non-overlapping matches, left to
    right. *)
Fixpoint findall_fuel (fuel : nat) (s : pystr) : list pystr :=
  match fuel with
  | O => []
  | S fuel' =>
      match s with
      | [] => []
      | _ :: s' =>
          match match_number s with
          | Some (t, r) => t :: findall_fuel fuel' r
          | None => findall_fuel fuel' s'
          end
      end
  end.
Definition re_findall (s : pystr) : list pystr := findall_fuel (length s) s.

(** [float(t)] on the texts the pattern can match: digits, optionally
    followed by a dot and digits.  [None] is a ValueError. *)
Definition digits_value (d : pystr) : N :=
  foldl (λ acc c, 10 * acc + default 0 (digit_value c))%N 0%N d.

Definition decimal_value (int_part frac_part : pystr) : Q :=
  Qred (inject_Z (Z.of_N (digits_value (int_part ++ frac_part)))
        / inject_Z (10 ^ Z.of_nat (length frac_part))).

Definition py_float (t : pystr) : option F :=
  match take_digits t with
  | ([], _) => None
  | (d1, []) => Some (fl (decimal_value d1 []))
  | (d1, c :: r) =>
      if decide (c = dot)
      then match take_digits r with
           | (d2, []) => Some (fl (decimal_value d1 d2))
           | _ => None
           end
      else None
  end.

(** The cleaned text, after the two replacements and the strip. *)
Definition price_text (s : pystr) : pystr :=
  strip (str_remove comma (str_remove rupee s)).

(** The input is [None] when [pd.isna] holds of it, and its [str]
    otherwise. *)
Definition clean_price (price_str : option pystr) : option F :=
  match price_str with
  | None => Some (fl 0)
  | Some s =>
      let numbers := re_findall (price_text s) in
      match numbers with
      | t :: _ => py_float t
      | [] => Some (fl 0)
      end
  end.

(** [clean_discount]: as [clean_price], on the text as it is. *)
Definition clean_discount (discount_str : option pystr) : option F :=
  match discount_str with
  | None => Some (fl 0)
  | Some s =>
      let numbers := re_findall s in
      match numbers with
      | t :: _ => py_float t
      | [] => Some (fl 0)
      end
  end.

(** The first numeric token of an input, when there is one. *)
Definition price_token (s : pystr) : option pystr :=
  head (re_findall (price_text s)).

(** Characters of a numeric token: digits and the dot. *)
Definition numeric_char (c : char) : Prop := is_digit c = true ∨ c = dot.

(** An already-clean numeric string: digits, optionally followed by a dot
    and further digits. *)
Definition clean_numeric (t : pystr) : Prop :=
  ∃ d1 d2, d1 ≠ [] ∧ forallb is_digit d1 = true ∧ forallb is_digit d2 = true
           ∧ (t = d1 ∨ t = d1 ++ dot :: d2).

End clean_price.

(** [extract_main_category].  [s.split(sep)] for a one-character separator:
    the pieces between the separators, at least one piece. *)
Definition pipe : char := 124%N.
(** The text "Unknown". *)
Definition unknown : pystr := [85; 110; 107; 110; 111; 119; 110]%N.

Fixpoint str_split (sep : char) (s : pystr) : list pystr :=
  match s with
  | [] => [[]]
  | c :: s' =>
      if decide (c = sep) then [] :: str_split sep s'
      else match str_split sep s' with
           | p :: ps => (c :: p) :: ps
           | [] => [[c]]
           end
  end.

Definition extract_main_category (category_str : option pystr) : pystr :=
  match category_str with
  | None => unknown
  | Some s =>
      let parts := str_split pipe s in
      match parts with
      | p :: _ => p
      | [] => unknown
      end
  end.

(** The ASCII part of the Unicode tables: enough to run the functions on
    ASCII input. *)
Definition ascii_digit_value (c : char) : option N :=
  if bool_decide (48 ≤ c ≤ 57)%N then Some (c - 48)%N else None.
Definition ascii_is_space (c : char) : bool :=
  bool_decide (c = 32 ∨ 9 ≤ c ≤ 13 ∨ 28 ≤ c ≤ 31)%N.

Definition ascii_unicode : Unicode.
Proof.
  refine {| digit_value := ascii_digit_value; is_space := ascii_is_space |};
    try reflexivity.
  - intros c Hc. unfold ascii_digit_value. by rewrite bool_decide_eq_true_2.
  - intros c [d Hd]. unfold ascii_digit_value, ascii_is_space in *.
    case_bool_decide; [|done]. apply bool_decide_eq_false_2. lia.
Defined.

(** The text "₹1,234.50". *)
Definition price_example : pystr := [rupee; 49; 44; 50; 51; 52; 46; 53; 48]%N.

(** ** src/data_preprocessor.py: prepare_features *)

(** A two-dimensional float array is represented by the list of its
    columns. *)
Definition column := list pyfloat.

(** The pandas, numpy and scikit-learn operations [prepare_features] calls:
    - [df_columns df] is [df.columns];
    - [to_numeric df c] is [pd.to_numeric(df[c], errors='coerce')];
    - [get_dummies df] is
      [pd.get_dummies(df['favorite_category'], prefix='cat')], as named
      columns;
    - [np_var c] is [np.var] of one column;
    - [scaler_fit_transform X] is [StandardScaler().fit_transform(X)]
      ([None] when it raises). *)
Class Frames : Type := {
  DataFrame : Type;
  df_columns : DataFrame → list string;
  to_numeric : DataFrame → string → column;
  get_dummies : DataFrame → list (string * column);
  np_var : column → pyfloat;
  scaler_fit_transform : list column → option (list column)
}.

(** [.fillna(0)], [np.isnan], [np.isinf], [np.nan_to_num(.., nan=0.0,
    posinf=0.0, neginf=0.0)] and the comparison [v > t] of floats. *)
Definition fillna0 (c : column) : column :=
  (λ v, match v with NaN => Fin 0 | _ => v end) <$> c.
Definition isnan (v : pyfloat) : bool :=
  match v with NaN => true | _ => false end.
Definition isinf (v : pyfloat) : bool :=
  match v with PosInf | NegInf => true | _ => false end.
Definition nan_to_num (v : pyfloat) : pyfloat :=
  match v with Fin q => Fin q | _ => Fin 0 end.
Definition pyfloat_gt (v : pyfloat) (t : Q) : bool :=
  match v with
  | Fin q => bool_decide (t < q)%Q
  | PosInf => true
  | NegInf | NaN => false
  end.

(** The exceptions of [prepare_features]. *)
Inductive prepare_error : Type :=
  | MissingFeature (feature : string)
  | ZeroVariance
  | IndexError
  | ScalerError.

(** The attributes of a [DataPreprocessor]: the scaler (absent, created, or
    fitted on an array) and the feature names. *)
Inductive scaler_state : Type :=
  | NoScaler
  | Unfitted
  | Fitted (X : list column).

Record preprocessor : Type := {
  scaler : scaler_state;
  feature_names : list string
}.

Definition required_features : list string := ["avg_price"; "avg_discount"].
Definition variance_threshold : Q := 1 # 100000000.

(** The first required feature that is not a column, if any. *)
Fixpoint first_missing (features columns : list string) : option string :=
  match features with
  | [] => None
  | feature :: rest =>
      if bool_decide (feature ∈ columns) then first_missing rest columns
      else Some feature
  end.

(** [[feature_names[i] for i in range(len(feature_names)) if valid[i]]];
    [None] is the IndexError of [valid[i]]. *)
Fixpoint select_names (names : list string) (valid : list bool)
    : option (list string) :=
  match names with
  | [] => Some []
  | n :: names' =>
      match valid with
      | [] => None
      | b :: valid' =>
          r ← select_names names' valid'; Some (if b : bool then n :: r else r)
      end
  end.

Section prepare.
Context `{Frames}.

(** Lines 119-134: the frame of candidate features, as columns and names. *)
Definition feature_frame (df : DataFrame) : list column * list string :=
  let avg_price := fillna0 (to_numeric df "avg_price") in
  let avg_discount := fillna0 (to_numeric df "avg_discount") in
  if bool_decide ("favorite_category" ∈ df_columns df) then
    let category_dummies := get_dummies df in
    ([avg_price; avg_discount] ++ category_dummies.*2,
     required_features ++ category_dummies.*1)
  else ([avg_price; avg_discount], required_features).

Definition prepare_features (self : preprocessor) (df : DataFrame)
    : preprocessor * (prepare_error + (list column * list string)) :=
  match first_missing required_features (df_columns df) with
  | Some feature => (self, inl (MissingFeature feature))
  | None =>
      let '(df_work, names) := feature_frame df in
      let X := fillna0 <$> df_work in
      let variance := np_var <$> X in
      let valid_features := (λ v, pyfloat_gt v variance_threshold) <$> variance in
      if decide (Np.sum valid_features = 0) then (self, inl ZeroVariance)
      else
        match Np.select X valid_features, select_names names valid_features with
        | Some X', Some kept =>
            let self := {| scaler := scaler self; feature_names := kept |} in
            let self := {| scaler := Unfitted; feature_names := feature_names self |} in
            match scaler_fit_transform X' with
            | Some X_scaled =>
                let self := {| scaler := Fitted X'; feature_names := feature_names self |} in
                let X_scaled :=
                  if existsb (existsb isnan) X_scaled || existsb (existsb isinf) X_scaled
                  then (λ c : column, nan_to_num <$> c) <$> X_scaled
                  else X_scaled in
                (self, inr (X_scaled, feature_names self))
            | None => (self, inl ScalerError)
            end
        | _, _ => (self, inl IndexError)
        end
  end.

(** The candidate features with their names, and those that pass the
    variance filter. *)
Definition candidates (df : DataFrame) : list (string * column) :=
  zip (feature_frame df).2 (fillna0 <$> (feature_frame df).1).

Definition varying (p : string * column) : Prop :=
  pyfloat_gt (np_var p.2) variance_threshold = true.

#[global] Instance varying_dec (p : string * column) : Decision (varying p).
Proof. unfold varying. apply _. Defined.

End prepare.

(** A stand-in for the pandas side, to run [prepare_features] on small
    frames: a frame is a list of named columns, there is no category column
    to expand, the variance is 1 for a column with two different entries and
    0 otherwise, and scaling returns the array as it is. *)
Definition frames_plain : Frames :=
  {| DataFrame := list (string * column);
     df_columns := λ df, df.*1;
     to_numeric := λ df c, match list_find (λ p, p.1 = c) df with
                           | Some (_, p) => p.2
                           | None => []
                           end;
     get_dummies := λ _, [];
     np_var := λ c, match c with
                    | Fin x :: Fin y :: _ => if bool_decide (x == y)%Q then Fin 0 else Fin 1
                    | _ => Fin 0
                    end;
     scaler_fit_transform := λ X, Some X |}.

(** ** numpy's variance and scikit-learn's StandardScaler on rationals

    The two numeric operations behind [np_var] and [scaler_fit_transform],
    with every float represented by the rational it denotes and the
    arithmetic on finite values taken as exact, the square root apart:
    - [np.var] of a column is the mean of the squared deviations from the
      mean, and NaN for an empty column or one with an entry that is not
      finite;
    - [StandardScaler().fit_transform] raises on an empty array and on an
      entry that is not finite, and otherwise maps each column [x] to
      [(x - mean) / scale], where [scale] is the square root of the variance
      of the column, or 1 for a column of variance 0. *)

Definition finite_value (v : pyfloat) : option Q :=
  match v with Fin q => Some q | _ => None end.
Definition finite_values (c : column) : option (list Q) := mapM finite_value c.




Section scaler.
Context `{FloatSqrt}.



End scaler.





(** * Label normaliser: proofs *)

Section normalizer_proofs.

Lemma length_eq_mask (a : list Z) v : length (Np.eq_mask a v) = length a.
Proof. unfold Np.eq_mask. by rewrite length_fmap. Qed.

Lemma length_fill (a : list Z) mask v :
  length mask = length a → length (Np.fill a mask v) = length a.
Proof. intros Hl. unfold Np.fill. rewrite length_zip_with. lia. Qed.

Lemma lookup_fill (cur arr : list Z) (i : nat) (x c v w : Z) :
  arr !! i = Some x → cur !! i = Some c →
  Np.fill cur (Np.eq_mask arr v) w !! i = Some (if decide (x = v) then w else c).
Proof.
  intros Ha Hc. unfold Np.fill, Np.eq_mask.
  rewrite lookup_zip_with, Hc. simpl.
  rewrite list_lookup_fmap, Ha. simpl.
  by destruct (decide (x = v)); [rewrite bool_decide_eq_true_2|rewrite bool_decide_eq_false_2].
Qed.

Lemma length_relabel_list arr olds n cur :
  length cur = length arr → length (relabel_list arr olds n cur) = length arr.
Proof.
  revert n cur. induction olds as [|o olds IH]; intros n cur Hl; simpl; [done|].
  apply IH. rewrite length_fill; [done|]. by rewrite length_eq_mask.
Qed.

Lemma relabel_list_other arr olds n cur i x c :
  arr !! i = Some x → cur !! i = Some c → x ∉ olds →
  relabel_list arr olds n cur !! i = Some c.
Proof.
  revert n cur c. induction olds as [|o olds IH]; intros n cur c Ha Hc Hx; simpl; [done|].
  apply not_elem_of_cons in Hx as [Hne Hx].
  apply IH; [done| |done].
  rewrite (lookup_fill _ _ _ x c) by done. by rewrite decide_False.
Qed.

Lemma relabel_list_at arr olds n cur i x c j :
  arr !! i = Some x → cur !! i = Some c → NoDup olds → olds !! j = Some x →
  relabel_list arr olds n cur !! i = Some (n + Z.of_nat j).
Proof.
  revert n cur c j. induction olds as [|o olds IH]; intros n cur c j Ha Hc Hnd Hj; [done|].
  apply NoDup_cons in Hnd as [Ho Hnd]. simpl.
  destruct j as [|j]; simpl in Hj.
  - injection Hj as ->.
    rewrite (relabel_list_other _ _ _ _ _ x n); [f_equal; lia|done| |done].
    rewrite (lookup_fill _ _ _ x c) by done. by rewrite decide_True.
  - assert (x ≠ o) as Hne.
    { intros ->. apply Ho. by eapply list_elem_of_lookup_2. }
    rewrite (IH _ _ c j); [f_equal; lia|done| |done|done].
    rewrite (lookup_fill _ _ _ x c) by done. by rewrite decide_False.
Qed.

(** The loop, run on a store where the two arrays are distinct objects. *)
Lemma relabel_loop_run labels normalized olds :
  ∀ mapping n (h : store) arr cur,
    labels ≠ normalized →
    h !! labels = Some arr → h !! normalized = Some cur →
    length cur = length arr →
    ∃ mapping',
      relabel_loop labels normalized olds mapping n h
      = Some ((mapping', n + len olds),
              <[normalized := relabel_list arr olds n cur]> h).
Proof.
  induction olds as [|o olds IH]; intros mapping n h arr cur Hne Hl Hn Hlen.
  - exists mapping. simpl. unfold ret, len. simpl.
    rewrite Z.add_0_r. by rewrite insert_id.
  - simpl. unfold bind at 1. unfold Np.read at 1. rewrite Hl.
    unfold bind at 1. unfold Np.masked_store at 1. rewrite Hn.
    rewrite decide_True by (by rewrite length_eq_mask).
    set (cur' := Np.fill cur (Np.eq_mask arr o) n).
    destruct (IH (<[o:=n]> mapping) (n + 1) (<[normalized:=cur']> h) arr cur')
      as [mapping' Hrun]; [done|by rewrite lookup_insert_ne|by rewrite lookup_insert_eq| |].
    { unfold cur'. rewrite length_fill; [done|]. by rewrite length_eq_mask. }
    exists mapping'. rewrite Hrun. rewrite insert_insert_eq.
    do 3 f_equal. unfold len. simpl length. lia.
Qed.

Lemma elem_of_loop_labels arr x : x ∈ loop_labels arr ↔ x ∈ arr ∧ x ≠ -1.
Proof.
  unfold loop_labels, Np.unique.
  rewrite merge_sort_Permutation, list_elem_of_filter.
  rewrite merge_sort_Permutation, elem_of_remove_dups. tauto.
Qed.

Lemma NoDup_loop_labels arr : NoDup (loop_labels arr).
Proof.
  unfold loop_labels, Np.unique. rewrite merge_sort_Permutation.
  apply NoDup_filter. rewrite merge_sort_Permutation. apply NoDup_remove_dups.
Qed.

Lemma sorted_loop_labels arr : StronglySorted Z.le (loop_labels arr).
Proof. apply StronglySorted_merge_sort; apply _. Qed.

Lemma loop_labels_set arr : list_to_set (loop_labels arr) = real_labels arr.
Proof.
  apply set_eq. intros x. unfold real_labels.
  rewrite elem_of_list_to_set, elem_of_loop_labels, elem_of_filter, elem_of_list_to_set.
  tauto.
Qed.

(** In a sorted list without duplicates, the elements below the one at
    position [j] are the first [j]. *)
Lemma sorted_below (L : list Z) : ∀ j x,
  StronglySorted Z.le L → NoDup L → L !! j = Some x →
  filter (λ v, v < x) L = take j L.
Proof.
  induction L as [|a L IH]; intros j x Hs Hnd Hj; [done|].
  apply StronglySorted_inv in Hs as [Hs Hall].
  apply NoDup_cons in Hnd as [Ha Hnd].
  destruct j as [|j]; simpl in Hj.
  - injection Hj as ->. rewrite filter_cons_False by lia. simpl.
    clear -Hall. induction Hall as [|b L Hb _ IH']; [done|].
    rewrite filter_cons_False by lia. done.
  - assert (x ∈ L) as Hx by (by eapply list_elem_of_lookup_2).
    assert (a ≤ x) by (by eapply (proj1 (Forall_forall _ _) Hall)).
    assert (a ≠ x) by (by intros ->).
    rewrite filter_cons_True by lia. simpl. f_equal. by apply IH.
Qed.

Lemma rank_loop_labels arr j x :
  loop_labels arr !! j = Some x →
  size (filter (λ v, v < x) (real_labels arr)) = j.
Proof.
  intros Hj. rewrite <-loop_labels_set.
  assert (filter (λ v, v < x) (list_to_set (loop_labels arr) : gset Z)
          = list_to_set (filter (λ v, v < x) (loop_labels arr))) as ->.
  { apply set_eq. intros y.
    rewrite elem_of_filter, !elem_of_list_to_set, list_elem_of_filter. tauto. }
  rewrite size_list_to_set by (apply NoDup_filter, NoDup_loop_labels).
  rewrite (sorted_below _ j x);
    [|apply sorted_loop_labels|apply NoDup_loop_labels|done].
  apply length_take_le. apply lookup_lt_Some in Hj. lia.
Qed.

Lemma size_real_labels arr : size (real_labels arr) = length (loop_labels arr).
Proof.
  rewrite <-loop_labels_set. apply size_list_to_set, NoDup_loop_labels.
Qed.

Lemma any_eq_mask (arr : list Z) v : Np.any (Np.eq_mask arr v) = true ↔ v ∈ arr.
Proof.
  unfold Np.any, Np.eq_mask. rewrite existsb_exists. split.
  - intros [b [Hin Hb]]. apply list_elem_of_In, list_elem_of_fmap in Hin as [y [-> Hy]].
    unfold id in Hb. apply bool_decide_eq_true in Hb as ->. done.
  - intros Hv. exists true. split; [|done].
    apply list_elem_of_In, list_elem_of_fmap. exists v. split; [|done].
    by rewrite bool_decide_eq_true_2.
Qed.

Lemma normalize_cluster_labels_run (h : store) (labels : loc) arr :
  h !! labels = Some arr →
  normalize_cluster_labels labels h
  = Some (fresh (dom h), <[fresh (dom h) := normalized_contents arr]> h).
Proof.
  intros Hl. unfold normalize_cluster_labels.
  unfold bind at 1. unfold Np.read at 1. rewrite Hl.
  unfold bind at 1. unfold Np.copy at 1. rewrite Hl.
  set (l' := fresh (dom h)).
  assert (h !! l' = None) as Hfresh.
  { apply not_elem_of_dom. apply is_fresh. }
  assert (labels ≠ l') as Hne by (intros ->; congruence).
  destruct (relabel_loop_run labels l' (loop_labels arr) ∅ 1 (<[l':=arr]> h) arr arr)
    as [mapping' Hrun]; [done|by rewrite lookup_insert_ne|by rewrite lookup_insert_eq|done|].
  unfold bind at 1. fold (loop_labels arr). rewrite Hrun. simpl.
  rewrite insert_insert_eq.
  unfold bind at 1. unfold Np.read at 1. rewrite lookup_insert_ne by done. rewrite Hl.
  unfold normalized_contents.
  destruct (Np.any (Np.eq_mask arr (-1))); [|done].
  unfold bind, Np.masked_store, ret. rewrite lookup_insert_eq.
  rewrite decide_True.
  - by rewrite insert_insert_eq.
  - rewrite length_relabel_list by done. by rewrite length_eq_mask.
Qed.

Lemma normalized_contents_spec arr :
  normalized_contents arr = canonical_label arr <$> arr.
Proof.
  assert (length (relabel_list arr (loop_labels arr) 1 arr) = length arr) as Hlen
    by (by apply length_relabel_list).
  assert (length (normalized_contents arr) = length arr) as Hlen'.
  { unfold normalized_contents. destruct (Np.any _); [|done].
    rewrite length_fill; [done|]. by rewrite length_eq_mask. }
  apply list_eq. intros i. rewrite list_lookup_fmap.
  destruct (arr !! i) as [x|] eqn:Hi; simpl.
  2:{ apply lookup_ge_None. apply lookup_ge_None in Hi. lia. }
  assert (relabel_list arr (loop_labels arr) 1 arr !! i
          = Some (if decide (x = -1) then x else canonical_label arr x)) as Hr.
  { destruct (decide (x = -1)) as [->|Hx].
    - apply (relabel_list_other _ _ _ _ _ (-1)); [done|done|].
      rewrite elem_of_loop_labels. tauto.
    - assert (x ∈ loop_labels arr) as Hin.
      { apply elem_of_loop_labels. split; [|done]. by eapply list_elem_of_lookup_2. }
      apply list_elem_of_lookup in Hin as [j Hj].
      rewrite (relabel_list_at _ _ _ _ _ x x j); [|done|done|apply NoDup_loop_labels|done].
      unfold canonical_label. rewrite decide_False by done.
      rewrite (rank_loop_labels _ j) by done. f_equal. lia. }
  unfold normalized_contents.
  destruct (Np.any (Np.eq_mask arr (-1))) eqn:Hany.
  - rewrite (lookup_fill _ _ _ x _ _ _ Hi Hr).
    destruct (decide (x = -1)) as [->|Hx]; [|done].
    unfold canonical_label. rewrite decide_True by done.
    rewrite size_real_labels. unfold len. f_equal. lia.
  - rewrite Hr. destruct (decide (x = -1)) as [->|Hx]; [|done].
    assert (-1 ∈ arr) as Hin by (by eapply list_elem_of_lookup_2).
    apply any_eq_mask in Hin. congruence.
Qed.

End normalizer_proofs.

(** C4 (Label Normalizer).  Running [normalize_cluster_labels] on a stored
    integer label array always succeeds, and the array it returns holds, at
    every position, the canonical label of the input label there: a
    non-outlier label becomes 1 plus the number of distinct non-outlier
    labels smaller than it (consecutive integers from 1, in ascending order
    of the original value), and the outlier sentinel -1 becomes one more than
    the number of distinct non-outlier labels.  In particular [1,2,3,-1]
    becomes [1,2,3,4] and [5,5,2,-1,2] becomes [2,2,1,3,1]. *)
Theorem normalize_cluster_labels_canonical :
  (∀ (h : store) (labels : loc) (arr : list Z),
     h !! labels = Some arr →
     ∃ (h' : store) (out : loc),
       normalize_cluster_labels labels h = Some (out, h')
       ∧ h' !! out = Some (canonical_label arr <$> arr))
  ∧ normalize_list [1; 2; 3; -1] = Some [1; 2; 3; 4]
  ∧ normalize_list [5; 5; 2; -1; 2] = Some [2; 2; 1; 3; 1].
Proof.
  split; [|split; vm_compute; reflexivity].
  intros h labels arr Hl.
  eexists _, _. split; [by apply normalize_cluster_labels_run|].
  rewrite <-normalized_contents_spec. apply lookup_insert_eq.
Qed.

(** C10 (frame of the Label Normaliser).  A call on a stored label array
    returns, and the location it returns was not allocated before the call
    (a fresh array, so in particular not the argument), while every array
    that existed before the call, the argument included, has the same
    contents afterwards. *)
Theorem normalize_cluster_labels_frame :
  ∀ (h : store) (labels : loc) (arr : list Z),
    h !! labels = Some arr →
    ∃ (h' : store) (out : loc),
      normalize_cluster_labels labels h = Some (out, h')
      ∧ h' !! labels = Some arr
      ∧ (out ∉ dom h) ∧ out ≠ labels
      ∧ (∀ l, l ∈ dom h → h' !! l = h !! l).
Proof.
  intros h labels arr Hl.
  eexists _, _. split; [by apply normalize_cluster_labels_run|].
  assert (fresh (dom h) ∉ dom h) as Hfresh by apply is_fresh.
  assert (∀ l, l ∈ dom h →
               (<[fresh (dom h) := normalized_contents arr]> h) !! l = h !! l) as Hframe.
  { intros l Hin. apply lookup_insert_ne. by intros <-. }
  assert (labels ∈ dom h) as Hdom by (apply elem_of_dom; eauto).
  split; [by rewrite Hframe|]. split; [done|].
  split; [intros Heq; by rewrite Heq in Hfresh|done].
Qed.

(** * Centroid-partitioning search: proofs *)

Section kmeans_proofs.
Context `{Sklearn}.

Lemma elem_of_py_range a b k : k ∈ py_range a b ↔ a ≤ k < b.
Proof. unfold py_range. rewrite elem_of_seqZ. lia. Qed.

(** The candidate counts are the integers from the lower bound of
    [k_range], below both the upper bound plus one and half the number of
    rows. *)
Lemma elem_of_k_values k_range X k :
  k ∈ k_values k_range X
  ↔ k_range.1 ≤ k ∧ k ≤ k_range.2 ∧ k < len X `div` 2.
Proof. unfold k_values. rewrite elem_of_py_range. lia. Qed.

Lemma head_k_values k_range X :
  k_values k_range X ≠ [] → head (k_values k_range X) = Some k_range.1.
Proof.
  unfold k_values, py_range. intros Hne.
  destruct (decide (0 < Z.min (k_range.2 + 1) (len X `div` 2) - k_range.1)) as [Hpos|Hneg].
  - by rewrite seqZ_cons.
  - by rewrite seqZ_nil in Hne by lia.
Qed.

Lemma length_silhouette_scores k_range X :
  length (silhouette_scores k_range X) = length (k_values k_range X).
Proof. unfold silhouette_scores. by rewrite length_fmap. Qed.

Lemma py_max_elem x l : py_max x l ∈ x :: l.
Proof.
  unfold py_max. revert x. induction l as [|y l IH]; intros x; simpl.
  - apply elem_of_cons. by left.
  - destruct (Qlt_le_dec x y).
    + apply elem_of_cons. right. apply IH.
    + specialize (IH x). apply elem_of_cons in IH as [->|Hin].
      * apply elem_of_cons. by left.
      * apply elem_of_cons. right. apply elem_of_cons. by right.
Qed.

Lemma argmax_from_lt l : ∀ i best_i best,
  (best_i < i)%nat → (argmax_from i best_i best l < i + length l)%nat.
Proof.
  induction l as [|y l IH]; intros i best_i best Hlt; simpl; [lia|].
  destruct (Qlt_le_dec best y).
  - specialize (IH (S i) i y). lia.
  - specialize (IH (S i) best_i best). lia.
Qed.

Lemma np_argmax_lt l : l ≠ [] → (np_argmax l < length l)%nat.
Proof.
  destruct l as [|x l]; [done|]. intros _. simpl.
  pose proof (argmax_from_lt l 1 0 x). lia.
Qed.

(** The search always returns, and what it returns is the lower bound of
    [k_range] or one of the candidates. *)
Lemma find_optimal_k_cases X k_range :
  ∃ k, find_optimal_k X k_range = Some k
       ∧ (k = k_range.1 ∨ k ∈ k_values k_range X).
Proof.
  unfold find_optimal_k, select_k.
  destruct (silhouette_scores k_range X) as [|s rest] eqn:Hs; [eauto|].
  destruct (Qlt_le_dec (py_max s rest) 0); [eauto|].
  assert (np_argmax (s :: rest) < length (k_values k_range X))%nat as Hlt.
  { rewrite <-length_silhouette_scores, Hs. by apply np_argmax_lt. }
  apply lookup_lt_is_Some_2 in Hlt as [k Hk].
  exists k. split; [done|]. right. by eapply list_elem_of_lookup_2.
Qed.

End kmeans_proofs.

(** C1 (centroid-partitioning search, default range), amended.  With
    [n = len X] rows and the default [k_range = (2, 10)]: every candidate
    count that is evaluated lies in the closed range [2, min(10, n/2)]; every
    count of that range other than [n/2] itself is evaluated; the search
    always returns a count, which is at least 2 and, when there are at least
    4 rows, at most half the number of rows.  It is the search [apply_kmeans]
    runs when no cluster count is supplied. *)
Theorem find_optimal_k_default_range `{Sklearn} (X : matrix) :
  (∀ k, k ∈ k_values default_k_range X → 2 ≤ k ≤ Z.min 10 (len X `div` 2))
  ∧ (∀ k, 2 ≤ k ≤ Z.min 10 (len X `div` 2) → k ≠ len X `div` 2 →
          k ∈ k_values default_k_range X)
  ∧ (∃ k, find_optimal_k X default_k_range = Some k
          ∧ 2 ≤ k ∧ (4 ≤ len X → 2 * k ≤ len X))
  ∧ apply_kmeans X None
    = (n ← find_optimal_k X default_k_range;
       labels ← KMeans_fit_predict n X;
       Some (labels, n)).
Proof.
  split; [|split; [|split; [|done]]].
  - intros k Hk. apply elem_of_k_values in Hk. simpl in Hk. lia.
  - intros k Hk Hne. apply elem_of_k_values. simpl. lia.
  - destruct (find_optimal_k_cases X default_k_range) as [k [Hk Hcase]].
    exists k. split; [done|].
    assert (0 ≤ len X) by (unfold len; lia).
    destruct Hcase as [->|Hin]; simpl.
    + split; [lia|]. lia.
    + apply elem_of_k_values in Hin. simpl in Hin.
      pose proof (Z.mul_div_le (len X) 2). lia.
Qed.

(** C7 (centroid-partitioning search, fallback).  If every score recorded
    for the evaluated candidates is below 0 (the -1 recorded for degenerate
    or failing candidates included), the search returns the lower bound of
    [k_range], which is the smallest candidate of the range whenever the
    range has a candidate. *)
Theorem find_optimal_k_all_negative `{Sklearn} (X : matrix) (k_range : Z * Z) :
  (∀ s, s ∈ silhouette_scores k_range X → (s < 0)%Q) →
  find_optimal_k X k_range = Some k_range.1
  ∧ (∀ k, k ∈ k_values k_range X → k_range.1 ≤ k)
  ∧ (k_values k_range X ≠ [] → k_range.1 ∈ k_values k_range X).
Proof.
  intros Hneg. split; [|split].
  - unfold find_optimal_k, select_k.
    destruct (silhouette_scores k_range X) as [|s rest] eqn:Hs; [done|].
    destruct (Qlt_le_dec (py_max s rest) 0) as [Hlt|Hle]; [done|].
    exfalso. apply (Qle_not_lt _ _ Hle). apply Hneg, py_max_elem.
  - intros k Hk. apply elem_of_k_values in Hk. lia.
  - intros Hne. apply head_k_values in Hne.
    rewrite head_lookup in Hne. by eapply list_elem_of_lookup_2.
Qed.

(** * Density-partitioning search: proofs *)

Section dbscan_proofs.
Context `{Sklearn}.

Lemma lex_le_refl c : lex_le c c.
Proof. right. split; [reflexivity|lia]. Qed.

Lemma lex_le_trans c1 c2 c3 : lex_le c1 c2 → lex_le c2 c3 → lex_le c1 c3.
Proof.
  unfold lex_le. intros [H1|[H1 H1']] [H2|[H2 H2']].
  - left. by eapply Qlt_trans.
  - left. by rewrite <-H2.
  - left. by rewrite H1.
  - right. split; [by rewrite H1|lia].
Qed.

Lemma dbscan_keep_cases st eps ms score nc :
  ((best_score st < score)%Q ∨ ((score == best_score st)%Q ∧ nc > best_n_clusters st)) ∧
    dbscan_keep st eps ms (score, nc)
    = {| best_score := score; best_eps := eps;
         best_min_samples := ms; best_n_clusters := nc |}
  ∨ ¬ ((best_score st < score)%Q ∨ ((score == best_score st)%Q ∧ nc > best_n_clusters st)) ∧
    dbscan_keep st eps ms (score, nc) = st.
Proof.
  unfold dbscan_keep.
  destruct (decide (best_score st < score)%Q) as [Hlt|Hnlt].
  { left. split; [by left|]. by rewrite bool_decide_eq_true_2. }
  rewrite (bool_decide_eq_false_2 _ Hnlt). simpl.
  destruct (decide (score == best_score st)%Q) as [Heq|Hneq].
  2:{ right. rewrite (bool_decide_eq_false_2 _ Hneq). simpl. split; [tauto|done]. }
  rewrite (bool_decide_eq_true_2 _ Heq). simpl.
  destruct (decide (nc > best_n_clusters st)) as [Hgt|Hngt].
  - left. rewrite (bool_decide_eq_true_2 _ Hgt). split; [by right|done].
  - right. rewrite (bool_decide_eq_false_2 _ Hngt). split; [tauto|done].
Qed.

Lemma dbscan_keep_ge_old st eps ms c :
  lex_le (best_key st) (best_key (dbscan_keep st eps ms c)).
Proof.
  destruct c as [score nc].
  destruct (dbscan_keep_cases st eps ms score nc) as [[Hc ->]|[_ ->]];
    [|apply lex_le_refl].
  unfold lex_le, best_key. simpl. destruct Hc as [Hlt|[Heq Hgt]]; [by left|].
  right. split; [by symmetry|lia].
Qed.

Lemma dbscan_keep_ge_new st eps ms c :
  lex_le c (best_key (dbscan_keep st eps ms c)).
Proof.
  destruct c as [score nc].
  destruct (dbscan_keep_cases st eps ms score nc) as [[Hc ->]|[Hc ->]];
    [apply lex_le_refl|].
  unfold lex_le, best_key. simpl.
  destruct (Qlt_le_dec score (best_score st)) as [Hlt|Hle]; [by left|].
  right.
  assert (score == best_score st)%Q as Heq.
  { apply Qle_antisym; [|done]. apply Qnot_lt_le. tauto. }
  split; [done|]. destruct (decide (nc ≤ best_n_clusters st)); [done|].
  exfalso. apply Hc. right. split; [done|lia].
Qed.

Local Arguments dbscan_keep : simpl never.

Lemma dbscan_step_inv X st eps ms st' :
  dbscan_step X st eps ms = Some st' →
  lex_le (best_key st) (best_key st')
  ∧ (∀ sc, dbscan_candidate X eps ms = Some (Some sc) → lex_le sc (best_key st'))
  ∧ (st' = st ∨ (dbscan_candidate X eps ms = Some (Some (best_key st'))
                 ∧ best_eps st' = eps ∧ best_min_samples st' = ms)).
Proof.
  unfold dbscan_step. destruct (dbscan_candidate X eps ms) as [[[score nc]|]|];
    simpl; [| |done].
  - intros [= <-]. split; [apply dbscan_keep_ge_old|]. split.
    + intros sc [= <-]. apply dbscan_keep_ge_new.
    + destruct (dbscan_keep_cases st eps ms score nc) as [[_ ->]|[_ ->]];
        [right; done|by left].
  - intros [= <-]. split; [apply lex_le_refl|]. split; [done|by left].
Qed.

Lemma dbscan_inner_inv X eps mss : ∀ st st',
  dbscan_inner X eps mss st = Some st' →
  lex_le (best_key st) (best_key st')
  ∧ (∀ ms sc, ms ∈ mss → dbscan_candidate X eps ms = Some (Some sc) →
              lex_le sc (best_key st'))
  ∧ (st' = st ∨ kept_from X [eps] mss st').
Proof.
  induction mss as [|ms mss IH]; intros st st' Hrun; simpl in Hrun.
  - injection Hrun as <-. split; [apply lex_le_refl|].
    split; [|by left]. intros ms sc Hin. by apply elem_of_nil in Hin.
  - destruct (dbscan_step X st eps ms) as [st1|] eqn:Hstep; [|done]. simpl in Hrun.
    apply dbscan_step_inv in Hstep as (Hmono1 & Hcand1 & Hfrom1).
    apply IH in Hrun as (Hmono & Hcand & Hfrom).
    split; [by eapply lex_le_trans|]. split.
    + intros ms' sc Hin Hsc. apply elem_of_cons in Hin as [->|Hin].
      * eapply lex_le_trans; [by apply Hcand1|done].
      * by eapply Hcand.
    + destruct Hfrom as [->|(e & m & He & Hm & Hc & Hbe & Hbm)].
      * destruct Hfrom1 as [->|(Hc & Hbe & Hbm)]; [by left|].
        right. exists eps, ms. repeat split; try done; apply elem_of_cons; by left.
      * right. exists e, m. repeat split; try done. apply elem_of_cons. by right.
Qed.

Lemma dbscan_outer_inv X mss epss : ∀ st st',
  dbscan_outer X epss mss st = Some st' →
  lex_le (best_key st) (best_key st')
  ∧ (∀ eps ms sc, eps ∈ epss → ms ∈ mss →
                  dbscan_candidate X eps ms = Some (Some sc) →
                  lex_le sc (best_key st'))
  ∧ (st' = st ∨ kept_from X epss mss st').
Proof.
  induction epss as [|eps epss IH]; intros st st' Hrun; simpl in Hrun.
  - injection Hrun as <-. split; [apply lex_le_refl|].
    split; [|by left]. intros eps ms sc Hin. by apply elem_of_nil in Hin.
  - destruct (dbscan_inner X eps mss st) as [st1|] eqn:Hin1; [|done]. simpl in Hrun.
    apply dbscan_inner_inv in Hin1 as (Hmono1 & Hcand1 & Hfrom1).
    apply IH in Hrun as (Hmono & Hcand & Hfrom).
    split; [by eapply lex_le_trans|]. split.
    + intros eps' ms sc Hin Hms Hsc. apply elem_of_cons in Hin as [->|Hin].
      * eapply lex_le_trans; [by eapply Hcand1|done].
      * by eapply Hcand.
    + destruct Hfrom as [->|(e & m & He & Hm & Hc & Hbe & Hbm)].
      * destruct Hfrom1 as [->|(e & m & He & Hm & Hc & Hbe & Hbm)]; [by left|].
        right. exists e, m. repeat split; try done.
        apply list_elem_of_singleton in He as ->. apply elem_of_cons. by left.
      * right. exists e, m. repeat split; try done. apply elem_of_cons. by right.
Qed.

(** The loops return as soon as every DBSCAN call of the grid returns. *)
Lemma dbscan_candidate_is_Some X eps ms :
  is_Some (DBSCAN_fit_predict eps ms X) → is_Some (dbscan_candidate X eps ms).
Proof.
  intros [labels Hl]. unfold dbscan_candidate. rewrite Hl. simpl.
  destruct (_ && _); [|eauto]. destruct (decide _); [|eauto].
  destruct (_ ≫= _); eauto.
Qed.

Lemma dbscan_inner_total X eps mss : ∀ st,
  (∀ ms, ms ∈ mss → is_Some (DBSCAN_fit_predict eps ms X)) →
  is_Some (dbscan_inner X eps mss st).
Proof.
  induction mss as [|ms mss IH]; intros st Hall; simpl; [eauto|].
  destruct (dbscan_candidate_is_Some X eps ms) as [c Hc].
  { apply Hall, elem_of_cons. by left. }
  unfold dbscan_step. rewrite Hc. simpl. apply IH.
  intros ms' Hin. apply Hall, elem_of_cons. by right.
Qed.

Lemma dbscan_outer_total X mss epss : ∀ st,
  (∀ eps ms, eps ∈ epss → ms ∈ mss → is_Some (DBSCAN_fit_predict eps ms X)) →
  is_Some (dbscan_outer X epss mss st).
Proof.
  induction epss as [|eps epss IH]; intros st Hall; simpl; [eauto|].
  destruct (dbscan_inner_total X eps mss st) as [st1 Hst1].
  { intros ms Hin. apply Hall; [|done]. apply elem_of_cons. by left. }
  rewrite Hst1. simpl. apply IH.
  intros eps' ms Hin Hms. apply Hall; [|done]. apply elem_of_cons. by right.
Qed.

(** When no combination is scored the state never changes. *)
Lemma dbscan_inner_unscored X eps mss st :
  (∀ ms, ms ∈ mss → dbscan_candidate X eps ms = Some None) →
  dbscan_inner X eps mss st = Some st.
Proof.
  induction mss as [|ms mss IH]; intros Hall; simpl; [done|].
  unfold dbscan_step. rewrite Hall by (apply elem_of_cons; by left). simpl.
  apply IH. intros ms' Hin. apply Hall, elem_of_cons. by right.
Qed.

Lemma dbscan_outer_unscored X mss epss st :
  (∀ eps ms, eps ∈ epss → ms ∈ mss → dbscan_candidate X eps ms = Some None) →
  dbscan_outer X epss mss st = Some st.
Proof.
  induction epss as [|eps epss IH]; intros Hall; simpl; [done|].
  rewrite dbscan_inner_unscored.
  - simpl. apply IH. intros eps' ms Hin Hms. apply Hall; [|done].
    apply elem_of_cons. by right.
  - intros ms Hin. apply Hall; [|done]. apply elem_of_cons. by left.
Qed.

(** Counting, as the source does it, against the set of real labels. *)
Lemma count_clusters_real labels :
  count_clusters labels = Z.of_nat (size (real_labels labels)).
Proof.
  unfold count_clusters, real_labels.
  set (S := list_to_set labels : gset Z).
  destruct (decide (-1 ∈ S)) as [Hin|Hnin].
  - assert (filter (λ v, v ≠ -1) S = S ∖ {[ -1 ]}) as ->.
    { apply set_eq. intros x. rewrite elem_of_filter, elem_of_difference, elem_of_singleton. tauto. }
    rewrite size_difference by (by apply singleton_subseteq_l).
    rewrite size_singleton.
    assert (size S ≠ 0%nat).
    { intros Hz. apply size_empty_inv in Hz. apply (Hz (-1)) in Hin. by apply elem_of_empty in Hin. }
    lia.
  - assert (filter (λ v, v ≠ -1) S = S) as ->; [|lia].
    apply set_eq. intros x. rewrite elem_of_filter. split; [tauto|].
    intros Hx. split; [|done]. by intros ->.
Qed.

Lemma sum_ne_mask (labels : list Z) v :
  Np.sum (Np.ne_mask labels v) = len (filter (λ x, x ≠ v) labels).
Proof.
  unfold Np.sum, Np.ne_mask, len. f_equal.
  induction labels as [|x labels IH]; [done|].
  rewrite fmap_cons. destruct (decide (x ≠ v)) as [Hx|Hx].
  - rewrite (filter_cons_True (λ x, x ≠ v)) by done.
    rewrite filter_cons_True by (by rewrite bool_decide_eq_true_2).
    simpl. by rewrite IH.
  - rewrite (filter_cons_False (λ x, x ≠ v)) by done.
    rewrite filter_cons_False by (by rewrite bool_decide_eq_false_2).
    done.
Qed.



End dbscan_proofs.



(** C6 (density-partitioning search, fallback).  If on the matrix [X] every
    combination of the grid runs and none of them is scored, the search
    returns exactly radius 0.8 and minimum-neighbour count 5. *)
Theorem find_optimal_dbscan_params_fallback `{Sklearn} (X : matrix) :
  (∀ eps ms, eps ∈ eps_range → ms ∈ min_samples_range →
             dbscan_candidate X eps ms = Some None) →
  find_optimal_dbscan_params X = Some (0.8%Q, 5).
Proof.
  intros Hnone. unfold find_optimal_dbscan_params, dbscan_search.
  by rewrite dbscan_outer_unscored.
Qed.

(** * Partition evaluator: proofs *)

(** C3 (Partition Evaluator).  For every feature matrix and label
    assignment, with [n_clusters] the number of distinct non-outlier labels
    and [n_valid] the number of non-outlier rows: when [n_clusters < 2] or
    [n_valid < 2 * n_clusters], the record holds silhouette_score = 0.0,
    davies_bouldin_score = +infinity and calinski_harabasz_score = 0.0; and
    in every case it holds n_clusters, n_noise (the number of outlier rows)
    and noise_ratio (n_noise / len(labels), or the integer 0 for an empty
    assignment). *)
Theorem calculate_metrics_sentinels `{Sklearn} (X : matrix) (labels : list Z) :
  (Z.of_nat (size (real_labels labels)) < 2
   ∨ len (filter (λ x, x ≠ -1) labels) < 2 * Z.of_nat (size (real_labels labels)) →
     calculate_metrics X labels !! "silhouette_score" = Some (VFloat (Fin 0))
     ∧ calculate_metrics X labels !! "davies_bouldin_score" = Some (VFloat PosInf)
     ∧ calculate_metrics X labels !! "calinski_harabasz_score" = Some (VFloat (Fin 0)))
  ∧ calculate_metrics X labels !! "n_clusters"
    = Some (VInt (Z.of_nat (size (real_labels labels))))
  ∧ calculate_metrics X labels !! "n_noise"
    = Some (VInt (len (filter (λ x, x = -1) labels)))
  ∧ calculate_metrics X labels !! "noise_ratio"
    = Some (if decide (len labels > 0)
            then VFloat (Fin (Qred (inject_Z (len (filter (λ x, x = -1) labels))
                                    / inject_Z (len labels))))
            else VInt 0).
Proof.
  unfold calculate_metrics. rewrite sum_ne_mask, count_clusters_real.
  set (n_clusters := Z.of_nat (size (real_labels labels))).
  set (n_valid := len (filter (λ x, x ≠ -1) labels)).
  destruct (bool_decide (n_clusters > 1) && bool_decide (n_valid >= n_clusters * 2))
    eqn:Hviable.
  - split.
    + intros Hfail. apply andb_true_iff in Hviable as [H1 H2].
      apply bool_decide_eq_true in H1, H2. lia.
    + by simplify_map_eq.
  - split; [intros _|]; by simplify_map_eq.
Qed.

(** * Price cleaning: proofs *)

Section clean_price_proofs.
Context `{Unicode} {F : Type} (fl : Q → F).

Lemma is_digit_Some c : is_digit c = true ↔ is_Some (digit_value c).
Proof.
  unfold is_digit. destruct (digit_value c); split; intros Hc; try done; eauto.
Qed.

Lemma is_digit_dot : is_digit dot = false.
Proof. unfold is_digit. by rewrite digit_dot. Qed.

Lemma numeric_char_not_space c : numeric_char c → is_space c = false.
Proof.
  intros [Hd| ->]; [|apply space_dot]. by apply space_digit, is_digit_Some.
Qed.

Lemma numeric_char_neq c x :
  is_digit x = false → x ≠ dot → numeric_char c → c ≠ x.
Proof. intros Hx Hdot [Hd| ->] Heq; [|done]. subst. congruence. Qed.

Lemma clean_numeric_chars t : clean_numeric t → Forall numeric_char t.
Proof.
  intros (d1 & d2 & _ & H1 & H2 & Ht).
  assert (∀ d, forallb is_digit d = true → Forall numeric_char d) as Hall.
  { intros d Hd. apply Forall_forall. intros c Hc. left.
    apply (proj1 (forallb_forall _ _) Hd). by apply list_elem_of_In. }
  destruct Ht as [-> | ->]; [by apply Hall|].
  apply Forall_app. split; [by apply Hall|].
  apply Forall_cons. split; [by right|by apply Hall].
Qed.

Lemma str_remove_absent c (t : pystr) :
  Forall (λ x, x ≠ c) t → str_remove c t = t.
Proof.
  unfold str_remove. induction 1 as [|x t Hx _ IH]; [done|].
  rewrite (filter_cons_True (λ x, x ≠ c)) by done. f_equal. exact IH.
Qed.

Lemma lstrip_no_space (t : pystr) :
  Forall (λ x, is_space x = false) t → lstrip t = t.
Proof. destruct 1 as [|x t Hx _]; [done|]. simpl. by rewrite Hx. Qed.

Lemma strip_no_space (t : pystr) :
  Forall (λ x, is_space x = false) t → strip t = t.
Proof.
  intros Hall. unfold strip. rewrite (lstrip_no_space t Hall).
  rewrite lstrip_no_space; [apply reverse_involutive|].
  by apply Forall_reverse.
Qed.

Lemma price_text_clean t : clean_numeric t → price_text t = t.
Proof.
  intros Hall%clean_numeric_chars. unfold price_text.
  assert (is_digit rupee = false) as Hr by (unfold is_digit; by rewrite digit_rupee).
  assert (is_digit comma = false) as Hc by (unfold is_digit; by rewrite digit_comma).
  rewrite (str_remove_absent rupee).
  2:{ eapply Forall_impl; [done|]. intros c. by apply numeric_char_neq. }
  rewrite (str_remove_absent comma).
  2:{ eapply Forall_impl; [done|]. intros c. by apply numeric_char_neq. }
  apply strip_no_space. eapply Forall_impl; [done|]. apply numeric_char_not_space.
Qed.

(** [take_digits] splits its argument, and the first part is made of
    digits. *)
Lemma take_digits_spec s : ∀ d r,
  take_digits s = (d, r) → s = d ++ r ∧ forallb is_digit d = true.
Proof.
  induction s as [|c s IH]; intros d r Ht; simpl in Ht.
  - by injection Ht as <- <-.
  - destruct (is_digit c) eqn:Hc.
    + destruct (take_digits s) as [d' r'] eqn:Hs. injection Ht as <- <-.
      destruct (IH d' r' eq_refl) as [-> Hd]. simpl. by rewrite Hc.
    + by injection Ht as <- <-.
Qed.

Lemma take_digits_app d r :
  forallb is_digit d = true →
  match r with [] => True | c :: _ => is_digit c = false end →
  take_digits (d ++ r) = (d, r).
Proof.
  intros Hd Hr. induction d as [|c d IH]; simpl.
  - destruct r as [|c r]; [done|]. simpl. by rewrite Hr.
  - simpl in Hd. apply andb_true_iff in Hd as [Hc Hd].
    rewrite Hc. by rewrite IH.
Qed.

Lemma match_number_clean s t r :
  match_number s = Some (t, r) → clean_numeric t.
Proof.
  unfold match_number. destruct (take_digits s) as [d1 r1] eqn:H1.
  apply take_digits_spec in H1 as [_ Hd1].
  destruct d1 as [|c d1]; [done|].
  destruct r1 as [|x r1].
  - intros [= <- <-]. exists (c :: d1), []. eauto.
  - destruct (decide (x = dot)) as [->|Hx].
    + destruct (take_digits r1) as [d2 r2] eqn:H2.
      apply take_digits_spec in H2 as [_ Hd2].
      intros [= <- <-]. exists (c :: d1), d2. eauto.
    + intros [= <- <-]. exists (c :: d1), []. eauto.
Qed.

Lemma findall_head_clean fuel : ∀ s t,
  head (findall_fuel fuel s) = Some t → clean_numeric t.
Proof.
  induction fuel as [|fuel IH]; intros s t Hh; [done|].
  simpl in Hh. destruct s as [|c s]; [done|].
  destruct (match_number (c :: s)) as [[t' r]|] eqn:Hm.
  - simpl in Hh. injection Hh as ->. by eapply match_number_clean.
  - by eapply IH.
Qed.

(** On a clean numeric string the pattern matches the whole string. *)
Lemma match_number_whole d1 d2 :
  d1 ≠ [] → forallb is_digit d1 = true → forallb is_digit d2 = true →
  match_number d1 = Some (d1, [])
  ∧ match_number (d1 ++ dot :: d2) = Some (d1 ++ dot :: d2, []).
Proof.
  intros Hne H1 H2. unfold match_number. split.
  - rewrite <-(app_nil_r d1) at 1. rewrite take_digits_app by done.
    by destruct d1.
  - rewrite take_digits_app; [|done|apply is_digit_dot].
    destruct d1 as [|c d1]; [done|]. rewrite decide_True by done.
    rewrite <-(app_nil_r d2) at 1. by rewrite take_digits_app.
Qed.

Lemma py_float_clean d1 d2 :
  d1 ≠ [] → forallb is_digit d1 = true → forallb is_digit d2 = true →
  py_float fl d1 = Some (fl (decimal_value d1 []))
  ∧ py_float fl (d1 ++ dot :: d2) = Some (fl (decimal_value d1 d2)).
Proof.
  intros Hne H1 H2. unfold py_float. split.
  - rewrite <-(app_nil_r d1) at 1. rewrite take_digits_app by done.
    by destruct d1.
  - rewrite take_digits_app; [|done|apply is_digit_dot].
    destruct d1 as [|c d1]; [done|]. rewrite decide_True by done.
    rewrite <-(app_nil_r d2) at 1. by rewrite take_digits_app.
Qed.

Lemma re_findall_clean t : clean_numeric t → head (re_findall t) = Some t.
Proof.
  intros (d1 & d2 & Hne & H1 & H2 & Ht).
  destruct (match_number_whole d1 d2 Hne H1 H2) as [Hm1 Hm2].
  unfold re_findall.
  destruct Ht as [-> | ->].
  - destruct d1 as [|c d1]; [done|]. simpl length.
    cbn [findall_fuel]. by rewrite Hm1.
  - destruct d1 as [|c d1]; [done|].
    change ((c :: d1) ++ dot :: d2) with (c :: (d1 ++ dot :: d2)) in *.
    simpl length. cbn [findall_fuel]. by rewrite Hm2.
Qed.

Lemma py_float_is_Some t : clean_numeric t → is_Some (py_float fl t).
Proof.
  intros (d1 & d2 & Hne & H1 & H2 & Ht).
  destruct (py_float_clean d1 d2 Hne H1 H2) as [Hf1 Hf2].
  destruct Ht as [-> | ->]; eauto.
Qed.

Lemma clean_price_token s t :
  price_token s = Some t → clean_price fl (Some s) = py_float fl t.
Proof.
  unfold price_token, clean_price.
  destruct (re_findall (price_text s)); [done|]. by intros [= ->].
Qed.

Lemma price_token_clean t : clean_numeric t → price_token t = Some t.
Proof.
  intros Ht. unfold price_token. rewrite price_text_clean by done.
  by apply re_findall_clean.
Qed.

End clean_price_proofs.

Section clean_price_example.
Context `{Unicode} {F : Type} (fl : Q → F).

Lemma is_digit_ascii c : (48 ≤ c ≤ 57)%N → is_digit c = true.
Proof. intros Hc. unfold is_digit. by rewrite digit_ascii. Qed.

(** A clean numeric string is cleaned to the number it denotes. *)
Lemma clean_price_clean d1 d2 :
  d1 ≠ [] → forallb is_digit d1 = true → forallb is_digit d2 = true →
  clean_price fl (Some d1) = Some (fl (decimal_value d1 []))
  ∧ clean_price fl (Some (d1 ++ dot :: d2)) = Some (fl (decimal_value d1 d2)).
Proof.
  intros Hne H1 H2.
  destruct (py_float_clean fl d1 d2 Hne H1 H2) as [Hf1 Hf2].
  split.
  - rewrite (clean_price_token fl d1 d1); [done|].
    apply price_token_clean. exists d1, []. eauto.
  - rewrite (clean_price_token fl _ (d1 ++ dot :: d2)); [done|].
    apply price_token_clean. exists d1, d2. eauto.
Qed.

(** Cleaning depends on the input only through its cleaned text. *)
Lemma clean_price_text s s' :
  price_text s = price_text s' → clean_price fl (Some s) = clean_price fl (Some s').
Proof. intros Heq. unfold clean_price. by rewrite Heq. Qed.

Lemma price_example_text :
  price_text price_example = [49; 50; 51; 52]%N ++ dot :: [53; 48]%N.
Proof.
  unfold price_text.
  assert (str_remove comma (str_remove rupee price_example)
          = [49; 50; 51; 52; 46; 53; 48]%N) as -> by (vm_compute; reflexivity).
  apply strip_no_space.
  repeat (apply Forall_cons; split;
          [first [apply space_digit; rewrite digit_ascii by lia; eauto
                 |apply space_dot]|]).
  apply Forall_nil_2.
Qed.

Lemma price_example_value :
  decimal_value [49; 50; 51; 52]%N [53; 48]%N = (2469 # 2)%Q.
Proof.
  unfold decimal_value, digits_value. cbn [app foldl].
  rewrite !digit_ascii by lia. vm_compute. reflexivity.
Qed.

End clean_price_example.

(** C8 (price cleaning).  [clean_price] is idempotent on clean numeric
    strings (digits, optionally followed by a dot and digits):
    - cleaning such a string returns the float of the number it denotes;
    - the numeric token extracted from any input is such a string, and
      cleaning that token again returns the same value as cleaning the input
      (the token is its own token);
    - cleaning the text "₹1,234.50" returns 1234.5;
    - cleaning a missing value returns 0.0;
    and the function returns a value on every input. *)
Theorem clean_price_idempotent `{Unicode} {F : Type} (fl : Q → F) :
  (∀ d1 d2,
     d1 ≠ [] → forallb is_digit d1 = true → forallb is_digit d2 = true →
     clean_price fl (Some d1) = Some (fl (decimal_value d1 []))
     ∧ clean_price fl (Some (d1 ++ dot :: d2)) = Some (fl (decimal_value d1 d2)))
  ∧ (∀ s t,
       price_token s = Some t →
       clean_numeric t
       ∧ price_token t = Some t
       ∧ clean_price fl (Some t) = clean_price fl (Some s))
  ∧ clean_price fl (Some price_example) = Some (fl (2469 # 2)%Q)
  ∧ clean_price fl None = Some (fl 0%Q)
  ∧ (∀ price_str, is_Some (clean_price fl price_str)).
Proof.
  split; [|split; [|split; [|split]]].
  - apply clean_price_clean.
  - intros s t Hs.
    assert (clean_numeric t) as Ht.
    { unfold price_token, re_findall in Hs. by eapply findall_head_clean. }
    split; [done|]. split; [by apply price_token_clean|].
    rewrite (clean_price_token fl s t Hs).
    apply clean_price_token. by apply price_token_clean.
  - assert (forallb is_digit [49; 50; 51; 52]%N = true
            ∧ forallb is_digit [53; 48]%N = true) as [Hd1 Hd2].
    { cbn [forallb]. by rewrite !is_digit_ascii by lia. }
    rewrite (clean_price_text fl price_example ([49; 50; 51; 52]%N ++ dot :: [53; 48]%N)).
    + rewrite <-price_example_value. by apply clean_price_clean.
    + rewrite price_example_text. symmetry. apply price_text_clean.
      exists [49; 50; 51; 52]%N, [53; 48]%N. eauto.
  - done.
  - intros [s|]; [|by eexists].
    destruct (price_token s) as [t|] eqn:Ht.
    + rewrite (clean_price_token fl s t Ht). apply py_float_is_Some.
      unfold price_token, re_findall in Ht. by eapply findall_head_clean.
    + unfold price_token in Ht. unfold clean_price.
      destruct (re_findall (price_text s)); [by eexists|done].
Qed.

(** * The density grid *)

Section grid_proofs.
Context `{Sklearn}.

Lemma dbscan_inner_fold X eps mss : ∀ acc,
  (acc ≫= dbscan_inner X eps mss)
  = foldl (dbscan_visit X) acc (map (λ ms, (eps, ms)) mss).
Proof.
  induction mss as [|ms mss IH]; intros acc; simpl.
  - by destruct acc.
  - rewrite <-IH. by destruct acc.
Qed.

Lemma dbscan_outer_fold X mss epss : ∀ acc,
  (acc ≫= dbscan_outer X epss mss)
  = foldl (dbscan_visit X) acc (list_prod epss mss).
Proof.
  induction epss as [|eps epss IH]; intros acc; simpl.
  - by destruct acc.
  - rewrite foldl_app, <-dbscan_inner_fold, <-IH. by destruct acc.
Qed.

Lemma dbscan_outer_fold_init X mss epss st :
  dbscan_outer X epss mss st
  = foldl (dbscan_visit X) (Some st) (list_prod epss mss).
Proof. exact (dbscan_outer_fold X mss epss (Some st)). Qed.

End grid_proofs.

(** C5 (density grid), amended.  The radii tried are the 17 values 0.3,
    0.4, ..., 1.9 (steps of 0.1 from 0.3, the stop value 2.0 excluded), the
    minimum-neighbour counts are 3, 5, 7, 10 and 15; the search visits
    exactly the combinations of the two, radius-major, and it is the search
    [apply_dbscan] runs when the radius or the minimum-neighbour count is
    not supplied. *)
Theorem dbscan_grid_values `{Sklearn} (X : matrix) :
  eps_range
  = [3 # 10; 2 # 5; 1 # 2; 3 # 5; 7 # 10; 4 # 5; 9 # 10; 1; 11 # 10; 6 # 5;
     13 # 10; 7 # 5; 3 # 2; 8 # 5; 17 # 10; 9 # 5; 19 # 10]%Q
  ∧ min_samples_range = [3; 5; 7; 10; 15]
  ∧ dbscan_search X
    = foldl (dbscan_visit X) (Some dbscan_init) (list_prod eps_range min_samples_range)
  ∧ (∀ eps ms,
       eps = None ∨ ms = None →
       apply_dbscan X eps ms
       = (p ← find_optimal_dbscan_params X;
          labels ← DBSCAN_fit_predict p.1 p.2 X;
          Some (labels, p))).
Proof.
  split; [by vm_compute|]. split; [done|]. split.
  - unfold dbscan_search. apply dbscan_outer_fold_init.
  - intros eps ms [-> | ->]; [done|]. by destruct eps.
Qed.

(** In binary64 arithmetic the quotient [(2.0 - 0.3) / 0.1] is exactly 17, so
    the length computed on floats is the one computed on rationals. *)
Lemma arange_length_binary64 :
  PrimFloat.eqb
    (PrimFloat.div (PrimFloat.sub 2.0%float 0.3%float) 0.1%float) 17.0%float
  = true
  ∧ Qceiling ((2.0 - 0.3) / 0.1) = 17.
Proof. split; vm_compute; reflexivity. Qed.

(** C5, counterexample: the stop value of the radius grid is not tried. *)
Lemma eps_range_excludes_stop :
  length eps_range = 17%nat ∧ ¬ ∃ eps, eps ∈ eps_range ∧ (eps == 2.0)%Q.
Proof.
  split; [by vm_compute|]. intros (eps & Hin & Heq).
  assert (Forall (λ e, e < 2.0)%Q eps_range) as Hall.
  { apply (bool_decide_unpack _). by vm_compute. }
  apply (proj1 (Forall_forall _ _) Hall) in Hin.
  rewrite Heq in Hin. by apply Qlt_irrefl in Hin.
Qed.

(** C1, counterexample: with 8 rows the count 4 = min(10, 8/2) is not a
    candidate; with 2 rows the search returns 2, which is more than half the
    number of rows. *)
Lemma find_optimal_k_range_counterexample :
  (2 ≤ 4 ≤ Z.min 10 (len (rows 8) `div` 2)
   ∧ k_values default_k_range (rows 8) = [2; 3])
  ∧ (∀ S : Sklearn,
       @find_optimal_k S (rows 2) default_k_range = Some 2
       ∧ ¬ 2 * 2 ≤ len (rows 2)).
Proof.
  split; [split; [by vm_compute|by vm_compute]|].
  intros S. split; [done|]. by vm_compute.
Qed.

(** * Runs on concrete inputs *)

Lemma normalize_cluster_labels_canonical_witness :
  ({[ 0%nat := [5; 5; 2; -1; 2] ]} : store) !! 0%nat = Some [5; 5; 2; -1; 2]
  ∧ ∃ (h' : store) (out : loc),
      normalize_cluster_labels 0%nat {[ 0%nat := [5; 5; 2; -1; 2] ]} = Some (out, h')
      ∧ h' !! out = Some (canonical_label [5; 5; 2; -1; 2] <$> [5; 5; 2; -1; 2]).
Proof.
  split; [reflexivity|].
  apply (proj1 normalize_cluster_labels_canonical). reflexivity.
Defined.

Lemma normalize_cluster_labels_frame_witness :
  ({[ 0%nat := [5; 5; 2; -1; 2] ]} : store) !! 0%nat = Some [5; 5; 2; -1; 2]
  ∧ ∃ (h' : store) (out : loc),
      normalize_cluster_labels 0%nat {[ 0%nat := [5; 5; 2; -1; 2] ]} = Some (out, h')
      ∧ h' !! 0%nat = Some [5; 5; 2; -1; 2]
      ∧ (out ∉ dom ({[ 0%nat := [5; 5; 2; -1; 2] ]} : store)) ∧ out ≠ 0%nat
      ∧ (∀ l, l ∈ dom ({[ 0%nat := [5; 5; 2; -1; 2] ]} : store) →
              h' !! l = ({[ 0%nat := [5; 5; 2; -1; 2] ]} : store) !! l).
Proof.
  split; [reflexivity|].
  apply normalize_cluster_labels_frame. reflexivity.
Defined.

Lemma find_optimal_k_default_range_witness :
  4 ≤ len (rows 8)
  ∧ ∃ k, find_optimal_k (H:=sklearn_round_robin) (rows 8) default_k_range = Some k
         ∧ 2 ≤ k ∧ 2 * k ≤ len (rows 8).
Proof.
  split; [by vm_compute|].
  destruct (proj1 (proj2 (proj2
              (find_optimal_k_default_range (H:=sklearn_round_robin) (rows 8)))))
    as (k & Hk & H2 & Hhalf).
  exists k. split; [exact Hk|]. split; [exact H2|]. apply Hhalf. by vm_compute.
Defined.

Lemma find_optimal_k_all_negative_witness :
  silhouette_scores (H:=sklearn_all_noise) default_k_range (rows 20)
  = replicate 8 (-1)%Q
  ∧ find_optimal_k (H:=sklearn_all_noise) (rows 20) default_k_range = Some 2.
Proof.
  assert (silhouette_scores (H:=sklearn_all_noise) default_k_range (rows 20)
          = replicate 8 (-1)%Q) as Hs by (vm_compute; reflexivity).
  split; [exact Hs|].
  apply (find_optimal_k_all_negative (H:=sklearn_all_noise) (rows 20) default_k_range).
  rewrite Hs. intros s [-> _]%elem_of_replicate. reflexivity.
Defined.


Lemma find_optimal_dbscan_params_fallback_witness :
  find_optimal_dbscan_params (H:=sklearn_all_noise) (rows 4) = Some (0.8%Q, 5).
Proof.
  apply (find_optimal_dbscan_params_fallback (H:=sklearn_all_noise) (rows 4)).
  intros eps ms _ _. reflexivity.
Defined.

Lemma calculate_metrics_sentinels_witness :
  Z.of_nat (size (real_labels [0; 0; 0])) < 2
  ∧ calculate_metrics (H:=sklearn_round_robin) (rows 3) [0; 0; 0] !! "silhouette_score"
    = Some (VFloat (Fin 0))
  ∧ calculate_metrics (H:=sklearn_round_robin) (rows 3) [0; 0; 0] !! "davies_bouldin_score"
    = Some (VFloat PosInf)
  ∧ calculate_metrics (H:=sklearn_round_robin) (rows 3) [0; 0; 0] !! "calinski_harabasz_score"
    = Some (VFloat (Fin 0)).
Proof.
  assert (Z.of_nat (size (real_labels [0; 0; 0])) < 2) as Hlt by (by vm_compute).
  split; [exact Hlt|].
  apply (proj1 (calculate_metrics_sentinels (H:=sklearn_round_robin) (rows 3) [0; 0; 0])).
  left. exact Hlt.
Defined.

Lemma dbscan_grid_values_witness :
  apply_dbscan (H:=sklearn_all_noise) (rows 4) None (Some 5)
  = Some ([-1; -1; -1; -1], (0.8%Q, 5)).
Proof.
  rewrite (proj2 (proj2 (proj2 (dbscan_grid_values (H:=sklearn_all_noise) (rows 4))))
             None (Some 5) (or_introl eq_refl)).
  reflexivity.
Defined.

Lemma clean_price_idempotent_witness :
  price_token (H:=ascii_unicode) price_example = Some [49; 50; 51; 52; 46; 53; 48]%N
  ∧ clean_price (H:=ascii_unicode) (λ q, q) (Some [49; 50; 51; 52; 46; 53; 48]%N)
    = clean_price (H:=ascii_unicode) (λ q, q) (Some price_example).
Proof.
  assert (price_token (H:=ascii_unicode) price_example
          = Some [49; 50; 51; 52; 46; 53; 48]%N) as Ht by (vm_compute; reflexivity).
  split; [exact Ht|].
  exact (proj2 (proj2 (proj1 (proj2 (clean_price_idempotent (H:=ascii_unicode) (λ q, q)))
                         price_example _ Ht))).
Defined.

(** * Label normaliser: further properties *)

Section normalizer_properties.

Lemma normalize_list_spec arr :
  normalize_list arr = Some (canonical_label arr <$> arr).
Proof.
  unfold normalize_list.
  rewrite (normalize_cluster_labels_run {[ 0%nat := arr ]} 0%nat arr)
    by apply lookup_singleton_eq.
  rewrite <-normalized_contents_spec. apply lookup_insert_eq.
Qed.

Lemma elem_of_real_labels arr x : x ∈ real_labels arr ↔ x ∈ arr ∧ x ≠ -1.
Proof. unfold real_labels. rewrite elem_of_filter, elem_of_list_to_set. tauto. Qed.

(** Among the real labels, a smaller label gets a smaller number. *)
Lemma canonical_label_lt arr x y :
  x ∈ arr → x ≠ -1 → y ≠ -1 → x < y →
  canonical_label arr x < canonical_label arr y.
Proof.
  intros Hx Hx1 Hy1 Hlt. unfold canonical_label.
  rewrite !decide_False by done.
  assert (filter (λ v, v < x) (real_labels arr) ⊂ filter (λ v, v < y) (real_labels arr))
    as Hsub.
  { split.
    - intros v. rewrite !elem_of_filter. intros [Hv Hin]. split; [lia|done].
    - intros Hsup. specialize (Hsup x).
      rewrite !elem_of_filter, elem_of_real_labels in Hsup.
      destruct Hsup as [Hxx _]; [done|]. lia. }
  apply subset_size in Hsub. lia.
Qed.

(** The outlier sentinel gets a larger number than any real label. *)
Lemma canonical_label_noise_max arr x :
  x ∈ arr → x ≠ -1 → canonical_label arr x < canonical_label arr (-1).
Proof.
  intros Hx Hx1. unfold canonical_label.
  rewrite decide_False by done. rewrite decide_True by done.
  assert (filter (λ v, v < x) (real_labels arr) ⊂ real_labels arr) as Hsub.
  { split.
    - intros v. rewrite elem_of_filter. tauto.
    - intros Hsup. specialize (Hsup x).
      rewrite elem_of_filter, elem_of_real_labels in Hsup.
      destruct Hsup as [Hxx _]; [done|]. lia. }
  apply subset_size in Hsub. lia.
Qed.

Lemma canonical_label_inj arr x y :
  x ∈ arr → y ∈ arr → canonical_label arr x = canonical_label arr y → x = y.
Proof.
  intros Hx Hy Heq.
  destruct (decide (x = -1)) as [->|Hx1], (decide (y = -1)) as [->|Hy1]; [done| | |].
  - pose proof (canonical_label_noise_max arr y Hy Hy1). lia.
  - pose proof (canonical_label_noise_max arr x Hx Hx1). lia.
  - destruct (Z.lt_trichotomy x y) as [Hlt|[->|Hgt]]; [|done|].
    + pose proof (canonical_label_lt arr x y Hx Hx1 Hy1 Hlt). lia.
    + pose proof (canonical_label_lt arr y x Hy Hy1 Hx1 Hgt). lia.
Qed.

Lemma canonical_label_index arr j x :
  loop_labels arr !! j = Some x → canonical_label arr x = Z.of_nat j + 1.
Proof.
  intros Hj. assert (x ∈ loop_labels arr) as Hin by (by eapply list_elem_of_lookup_2).
  apply elem_of_loop_labels in Hin as [_ Hx1].
  unfold canonical_label. rewrite decide_False by done.
  by rewrite (rank_loop_labels arr j x).
Qed.

(** The number of distinct labels: the real ones, plus one when the
    sentinel occurs. *)
Lemma size_labels arr :
  Z.of_nat (size (list_to_set arr : gset Z))
  = Z.of_nat (size (real_labels arr)) + (if decide (-1 ∈ arr) then 1 else 0).
Proof.
  pose proof (count_clusters_real arr) as Hc. unfold count_clusters in Hc.
  destruct (decide (-1 ∈ arr)) as [Hin|Hnin].
  - rewrite decide_True in Hc by (by apply elem_of_list_to_set). lia.
  - rewrite decide_False in Hc by (by rewrite elem_of_list_to_set). lia.
Qed.

Lemma canonical_label_range arr x :
  x ∈ arr → 1 ≤ canonical_label arr x ≤ Z.of_nat (size (list_to_set arr : gset Z)).
Proof.
  intros Hx. rewrite size_labels.
  destruct (decide (x = -1)) as [->|Hx1].
  - rewrite decide_True by done. unfold canonical_label. rewrite decide_True by done. lia.
  - pose proof (canonical_label_noise_max arr x Hx Hx1) as Hlt.
    unfold canonical_label in *. rewrite decide_False in * by done.
    rewrite decide_True in Hlt by done. destruct (decide (-1 ∈ arr)); lia.
Qed.

Lemma canonical_label_onto arr v :
  1 ≤ v ≤ Z.of_nat (size (list_to_set arr : gset Z)) →
  ∃ x, x ∈ arr ∧ canonical_label arr x = v.
Proof.
  rewrite size_labels, size_real_labels. intros Hv.
  destruct (decide (v ≤ Z.of_nat (length (loop_labels arr)))) as [Hle|Hgt].
  - destruct (lookup_lt_is_Some_2 (loop_labels arr) (Z.to_nat (v - 1))) as [x Hx]; [lia|].
    exists x. split.
    + apply list_elem_of_lookup_2, elem_of_loop_labels in Hx. tauto.
    + rewrite (canonical_label_index arr _ x Hx). lia.
  - destruct (decide (-1 ∈ arr)) as [Hin|Hnin]; [|lia].
    exists (-1). split; [done|]. unfold canonical_label.
    rewrite decide_True by done. rewrite size_real_labels. lia.
Qed.

Lemma normalized_labels_set arr :
  (list_to_set (canonical_label arr <$> arr) : gset Z)
  = list_to_set (seqZ 1 (Z.of_nat (size (list_to_set arr : gset Z)))).
Proof.
  apply set_eq. intros v.
  rewrite !elem_of_list_to_set, list_elem_of_fmap, elem_of_seqZ. split.
  - intros (x & -> & Hx). pose proof (canonical_label_range arr x Hx). lia.
  - intros Hv. destruct (canonical_label_onto arr v) as (x & Hx & Hc); [lia|]. eauto.
Qed.

(** On an array whose labels are exactly 1..k every label is its own
    number. *)
Lemma canonical_label_fixed (out : list Z) k y :
  (list_to_set out : gset Z) = list_to_set (seqZ 1 k) →
  y ∈ out → canonical_label out y = y.
Proof.
  intros Hset Hy.
  assert (1 ≤ y < 1 + k) as Hr.
  { apply elem_of_seqZ. apply (elem_of_list_to_set (C:=gset Z)).
    rewrite <-Hset. by apply elem_of_list_to_set. }
  unfold canonical_label. rewrite decide_False by lia.
  assert (filter (λ v, v < y) (real_labels out)
          = (list_to_set (seqZ 1 (y - 1)) : gset Z)) as ->.
  { apply set_eq. intros v. unfold real_labels.
    rewrite !elem_of_filter, Hset, !elem_of_list_to_set, !elem_of_seqZ. lia. }
  rewrite size_list_to_set by apply NoDup_seqZ. rewrite length_seqZ. lia.
Qed.

End normalizer_properties.

(** X1.  The normaliser is idempotent: normalising its own output returns
    that output unchanged. *)
Theorem normalize_list_idempotent (arr : list Z) :
  ∃ out, normalize_list arr = Some out ∧ normalize_list out = Some out.
Proof.
  exists (canonical_label arr <$> arr). split; [apply normalize_list_spec|].
  rewrite normalize_list_spec. f_equal.
  set (out := canonical_label arr <$> arr).
  rewrite <-(list_fmap_id out) at 3. apply list_fmap_ext.
  intros i y Hy. apply (canonical_label_fixed out _ y (normalized_labels_set arr)).
  by eapply list_elem_of_lookup_2.
Qed.

(** X2.  The normaliser keeps the partition: the output has the length of
    the input, and two positions carry the same output label exactly when
    they carry the same input label. *)
Theorem normalize_list_same_cluster (arr : list Z) :
  ∃ out, normalize_list arr = Some out
    ∧ length out = length arr
    ∧ (∀ i j x y a b,
         arr !! i = Some x → arr !! j = Some y →
         out !! i = Some a → out !! j = Some b →
         (a = b ↔ x = y)).
Proof.
  exists (canonical_label arr <$> arr). split; [apply normalize_list_spec|].
  split; [apply length_fmap|].
  intros i j x y a b Hi Hj Ha Hb.
  rewrite list_lookup_fmap, Hi in Ha. rewrite list_lookup_fmap, Hj in Hb.
  injection Ha as <-. injection Hb as <-. split; [|by intros ->].
  apply canonical_label_inj; by eapply list_elem_of_lookup_2.
Qed.

(** X3.  The normaliser keeps the order of the real labels and puts the
    outliers last: between two non-outlier positions the output labels
    compare as the input labels do, and the output label of an outlier
    position is larger than that of any non-outlier position. *)
Theorem normalize_list_order (arr : list Z) :
  ∃ out, normalize_list arr = Some out
    ∧ (∀ i j x y a b,
         arr !! i = Some x → arr !! j = Some y →
         out !! i = Some a → out !! j = Some b →
         y ≠ -1 →
         (x ≠ -1 → (a < b ↔ x < y)) ∧ (x = -1 → b < a)).
Proof.
  exists (canonical_label arr <$> arr). split; [apply normalize_list_spec|].
  intros i j x y a b Hi Hj Ha Hb Hy1.
  rewrite list_lookup_fmap, Hi in Ha. rewrite list_lookup_fmap, Hj in Hb.
  injection Ha as <-. injection Hb as <-.
  assert (x ∈ arr) as Hx by (by eapply list_elem_of_lookup_2).
  assert (y ∈ arr) as Hy by (by eapply list_elem_of_lookup_2).
  split.
  - intros Hx1. split; [|by apply canonical_label_lt].
    intros Hlt. destruct (Z.lt_trichotomy x y) as [Hxy|[->|Hyx]]; [done|lia|].
    pose proof (canonical_label_lt arr y x Hy Hy1 Hx1 Hyx). lia.
  - intros ->. by apply canonical_label_noise_max.
Qed.

(** X4.  The output labels are dense: the set of labels of the output is
    exactly 1, ..., k, where k is the number of distinct labels of the input
    (the sentinel counted).  In particular the output never contains the
    sentinel -1 nor 0. *)
Theorem normalize_list_dense (arr : list Z) :
  ∃ out, normalize_list arr = Some out
    ∧ (list_to_set out : gset Z)
      = list_to_set (seqZ 1 (Z.of_nat (size (list_to_set arr : gset Z))))
    ∧ (-1 ∉ out) ∧ (0 ∉ out).
Proof.
  exists (canonical_label arr <$> arr). split; [apply normalize_list_spec|].
  split; [apply normalized_labels_set|].
  split; intros Hin; apply (elem_of_list_to_set (C:=gset Z)) in Hin;
    rewrite normalized_labels_set in Hin;
    apply elem_of_list_to_set, elem_of_seqZ in Hin; lia.
Qed.

(** * Centroid-partitioning search: the choice among the scores *)

Section argmax_properties.
Context `{Sklearn}.

(** [argmax_from] returns the first position of a largest element. *)
Lemma argmax_from_spec l : ∀ (i best_i : nat) (best : Q) (pre : list Q),
  length pre = i → pre !! best_i = Some best →
  (∀ y, y ∈ pre → (y <= best)%Q) →
  (∀ j y, (j < best_i)%nat → pre !! j = Some y → (y < best)%Q) →
  ∃ m, (pre ++ l) !! argmax_from i best_i best l = Some m
       ∧ (∀ y, y ∈ pre ++ l → (y <= m)%Q)
       ∧ (∀ j y, (j < argmax_from i best_i best l)%nat →
                 (pre ++ l) !! j = Some y → (y < m)%Q).
Proof.
  induction l as [|y l IH]; intros i best_i best pre Hlen Hbest Hmax Hfirst; simpl.
  - exists best. rewrite app_nil_r. eauto.
  - assert ((pre ++ [y]) ++ l = pre ++ y :: l) as Happ by (by rewrite <-app_assoc).
    rewrite <-Happ.
    destruct (Qlt_le_dec best y) as [Hlt|Hle].
    + apply IH.
      * rewrite length_app. simpl. lia.
      * rewrite lookup_app_r by lia. by rewrite Hlen, Nat.sub_diag.
      * intros z [Hz| ->%list_elem_of_singleton]%elem_of_app; [|apply Qle_refl].
        apply Qlt_le_weak. eapply Qle_lt_trans; [by apply Hmax|done].
      * intros j z Hj Hz. rewrite lookup_app_l in Hz by lia.
        eapply Qle_lt_trans; [|done]. apply Hmax. by eapply list_elem_of_lookup_2.
    + apply IH.
      * rewrite length_app. simpl. lia.
      * apply lookup_app_l_Some. done.
      * intros z [Hz| ->%list_elem_of_singleton]%elem_of_app; [by apply Hmax|done].
      * intros j z Hj Hz. apply (Hfirst j z Hj).
        apply lookup_lt_Some in Hbest. by rewrite lookup_app_l in Hz by lia.
Qed.

Lemma np_argmax_spec (l : list Q) :
  l ≠ [] →
  ∃ m, l !! np_argmax l = Some m
       ∧ (∀ y, y ∈ l → (y <= m)%Q)
       ∧ (∀ j y, (j < np_argmax l)%nat → l !! j = Some y → (y < m)%Q).
Proof.
  destruct l as [|x l]; [done|]. intros _. simpl.
  apply (argmax_from_spec l 1 0 x [x]); [done|done| |].
  - intros y ->%list_elem_of_singleton. apply Qle_refl.
  - intros j y Hj. lia.
Qed.

Lemma py_max_ge_init l : ∀ x, (x <= py_max x l)%Q.
Proof.
  unfold py_max. induction l as [|z l IH]; intros x; simpl; [apply Qle_refl|].
  destruct (Qlt_le_dec x z) as [Hlt|Hle]; [|apply IH].
  eapply Qle_trans; [by apply Qlt_le_weak|apply IH].
Qed.

Lemma py_max_upper l : ∀ x y, y ∈ x :: l → (y <= py_max x l)%Q.
Proof.
  induction l as [|z l IH]; intros x y Hy.
  - apply list_elem_of_singleton in Hy as ->. apply Qle_refl.
  - apply elem_of_cons in Hy as [->|Hy]; [apply py_max_ge_init|].
    unfold py_max in *. simpl.
    destruct (Qlt_le_dec x z) as [Hlt|Hle]; [by apply IH|].
    apply elem_of_cons in Hy as [->|Hy].
    + eapply Qle_trans; [done|apply (py_max_ge_init l x)].
    + apply IH. apply elem_of_cons. by right.
Qed.

Lemma lookup_k_values k_range X (i : nat) k :
  k_values k_range X !! i = Some k →
  k = k_range.1 + Z.of_nat i
  ∧ silhouette_scores k_range X !! i = Some (kmeans_candidate_score X k).
Proof.
  intros Hk. split.
  - unfold k_values, py_range in Hk. by apply lookup_seqZ in Hk as [-> _].
  - unfold silhouette_scores. by rewrite list_lookup_fmap, Hk.
Qed.

End argmax_properties.

(** X5.  When at least one recorded score is not negative, [find_optimal_k]
    returns a candidate count whose score is the highest of all candidates,
    and every smaller candidate has a strictly lower score (ties go to the
    smallest count). *)
Theorem find_optimal_k_highest_score `{Sklearn} (X : matrix) (k_range : Z * Z) :
  (∃ k0, k0 ∈ k_values k_range X ∧ (0 <= kmeans_candidate_score X k0)%Q) →
  ∃ k, find_optimal_k X k_range = Some k
       ∧ k ∈ k_values k_range X
       ∧ (∀ k', k' ∈ k_values k_range X →
                (kmeans_candidate_score X k' <= kmeans_candidate_score X k)%Q)
       ∧ (∀ k', k' ∈ k_values k_range X → k' < k →
                (kmeans_candidate_score X k' < kmeans_candidate_score X k)%Q).
Proof.
  intros (k0 & Hk0 & Hpos).
  assert (kmeans_candidate_score X k0 ∈ silhouette_scores k_range X) as Hs0.
  { unfold silhouette_scores. apply list_elem_of_fmap. eauto. }
  unfold find_optimal_k, select_k.
  destruct (silhouette_scores k_range X) as [|s rest] eqn:Hs.
  { by apply elem_of_nil in Hs0. }
  destruct (Qlt_le_dec (py_max s rest) 0) as [Hneg|_].
  { exfalso. apply (Qlt_irrefl 0). eapply Qle_lt_trans; [done|].
    eapply Qle_lt_trans; [by apply py_max_upper|done]. }
  rewrite <-Hs in *.
  destruct (np_argmax_spec (silhouette_scores k_range X)) as (m & Hm & Hmax & Hfirst).
  { by rewrite Hs. }
  assert (np_argmax (silhouette_scores k_range X) < length (k_values k_range X))%nat as Hlt.
  { rewrite <-length_silhouette_scores. by eapply lookup_lt_Some. }
  apply lookup_lt_is_Some_2 in Hlt as [k Hk]. exists k.
  destruct (lookup_k_values _ _ _ _ Hk) as [Hkeq Hsk].
  rewrite Hm in Hsk. injection Hsk as ->.
  split; [done|]. split; [by eapply list_elem_of_lookup_2|]. split.
  - intros k' Hk'. apply Hmax. unfold silhouette_scores.
    apply list_elem_of_fmap. eauto.
  - intros k' Hk' Hlt. apply list_elem_of_lookup in Hk' as [j Hj].
    destruct (lookup_k_values _ _ _ _ Hj) as [Hjeq Hsj].
    apply (Hfirst j); [lia|done].
Qed.

(** * Density-partitioning search: what is returned *)

(** What the density search can return. *)
Lemma find_optimal_dbscan_params_grid `{Sklearn} (X : matrix) :
  ((∀ eps ms, eps ∈ eps_range → ms ∈ min_samples_range →
              is_Some (DBSCAN_fit_predict eps ms X)) →
   is_Some (find_optimal_dbscan_params X))
  ∧ (∀ eps ms,
       find_optimal_dbscan_params X = Some (eps, ms) →
       (eps, ms) = (0.8%Q, 5)
       ∨ eps ∈ eps_range ∧ ms ∈ min_samples_range).
Proof.
  split.
  - intros Hall. unfold find_optimal_dbscan_params, dbscan_search.
    destruct (dbscan_outer_total X min_samples_range eps_range dbscan_init Hall)
      as [st ->]. simpl. eauto.
  - intros eps ms. unfold find_optimal_dbscan_params.
    destruct (dbscan_search X) as [st|] eqn:Hrun; [|done]. simpl.
    destruct (decide (best_score st == -1)%Q) as [Heq|Hne].
    { rewrite bool_decide_eq_true_2 by done. intros [= <- <-]. by left. }
    rewrite bool_decide_eq_false_2 by done. intros [= <- <-]. right.
    unfold dbscan_search in Hrun.
    apply dbscan_outer_inv in Hrun as (_ & _ & Hfrom).
    destruct Hfrom as [->|(e & m & He & Hm & _ & <- & <-)]; [|done].
    exfalso. apply Hne. reflexivity.
Qed.

(** X6.  [find_optimal_dbscan_params] returns whenever every DBSCAN call of
    the grid returns, and what it returns is either the default pair
    (0.8, 5) or a combination of the grid that was scored, with a score above
    -1, and that no scored combination of the grid beats (higher score, or
    equal score and more clusters). *)
Theorem find_optimal_dbscan_params_result `{Sklearn} (X : matrix) :
  ((∀ eps ms, eps ∈ eps_range → ms ∈ min_samples_range →
              is_Some (DBSCAN_fit_predict eps ms X)) →
   is_Some (find_optimal_dbscan_params X))
  ∧ (∀ eps ms,
       find_optimal_dbscan_params X = Some (eps, ms) →
       (eps, ms) = (0.8%Q, 5)
       ∨ ∃ score nc,
           eps ∈ eps_range ∧ ms ∈ min_samples_range
           ∧ dbscan_candidate X eps ms = Some (Some (score, nc))
           ∧ (-1 < score)%Q
           ∧ ∀ eps' ms' score' nc',
               eps' ∈ eps_range → ms' ∈ min_samples_range →
               dbscan_candidate X eps' ms' = Some (Some (score', nc')) →
               (score' < score)%Q ∨ ((score' == score)%Q ∧ nc' ≤ nc)).
Proof.
  split.
  - intros Hall. unfold find_optimal_dbscan_params, dbscan_search.
    destruct (dbscan_outer_total X min_samples_range eps_range dbscan_init Hall)
      as [st ->]. simpl. eauto.
  - intros eps ms. unfold find_optimal_dbscan_params.
    destruct (dbscan_search X) as [st|] eqn:Hrun; [|done]. simpl.
    destruct (decide (best_score st == -1)%Q) as [Heq|Hne].
    { rewrite bool_decide_eq_true_2 by done. intros [= <- <-]. by left. }
    rewrite bool_decide_eq_false_2 by done. intros [= <- <-]. right.
    unfold dbscan_search in Hrun.
    apply dbscan_outer_inv in Hrun as (Hmono & Hcand & Hfrom).
    exists (best_score st), (best_n_clusters st).
    destruct Hfrom as [->|(e & m & He & Hm & Hc & <- & <-)].
    { exfalso. apply Hne. reflexivity. }
    split; [done|]. split; [done|]. split; [done|]. split.
    + destruct Hmono as [Hlt|[Heq _]]; [done|]. exfalso. apply Hne. by symmetry.
    + intros eps' ms' score' nc' He' Hm' Hc'.
      apply (Hcand eps' ms' (score', nc') He' Hm' Hc').
Qed.

(** * Partition evaluator: further properties *)

Section metrics_properties.
Context `{Sklearn}.

Lemma select_is_Some {A} (a : list A) (mask : list bool) :
  is_Some (Np.select a mask) ↔ length a = length mask.
Proof.
  revert mask. induction a as [|x a IH]; intros [|b mask]; simpl.
  - split; eauto.
  - split; [intros [? ?]; done|done].
  - split; [intros [? ?]; done|done].
  - specialize (IH mask). destruct (Np.select a mask) as [r|]; simpl.
    + split; [intros _; f_equal; apply IH; eauto|eauto].
    + split; [intros [? ?]; done|].
      intros [= Hl]. apply IH in Hl as [? ?]. done.
Qed.

Lemma select_ne_mask (labels : list Z) v :
  Np.select labels (Np.ne_mask labels v) = Some (filter (λ x, x ≠ v) labels).
Proof.
  induction labels as [|x labels IH]; [done|].
  unfold Np.ne_mask in *. rewrite fmap_cons. simpl. rewrite IH. simpl.
  destruct (decide (x ≠ v)) as [Hx|Hx].
  - rewrite bool_decide_eq_true_2 by done.
    by rewrite (filter_cons_True (λ x, x ≠ v)) by done.
  - rewrite bool_decide_eq_false_2 by done.
    by rewrite (filter_cons_False (λ x, x ≠ v)) by done.
Qed.

Lemma select_valid_rows {A} (X : list A) (labels : list Z) :
  length X = length labels →
  Np.select X (Np.ne_mask labels (-1)) = Some (valid_rows X labels).
Proof.
  unfold valid_rows, Np.ne_mask. revert labels.
  induction X as [|r X IH]; intros [|x labels] Hlen; simpl in *; try done.
  rewrite IH by lia. simpl.
  destruct (decide (x ≠ -1)) as [Hx|Hx].
  - rewrite bool_decide_eq_true_2 by done.
    by rewrite (filter_cons_True (λ p : A * Z, p.2 ≠ -1)) by done.
  - rewrite bool_decide_eq_false_2 by done.
    by rewrite (filter_cons_False (λ p : A * Z, p.2 ≠ -1)) by done.
Qed.

Lemma length_filter_split (labels : list Z) v :
  (length (filter (λ x, x = v) labels) + length (filter (λ x, x ≠ v) labels)
   = length labels)%nat.
Proof.
  induction labels as [|x labels IH]; [done|].
  destruct (decide (x = v)) as [Hx|Hx].
  - rewrite (filter_cons_True (λ x, x = v)) by done.
    rewrite (filter_cons_False (λ x, x ≠ v)) by (intros ?; done).
    simpl. lia.
  - rewrite (filter_cons_False (λ x, x = v)) by done.
    rewrite (filter_cons_True (λ x, x ≠ v)) by done.
    simpl. lia.
Qed.

Lemma size_list_to_set_le (l : list Z) :
  (size (list_to_set l : gset Z) ≤ length l)%nat.
Proof.
  induction l as [|x l IH]; [done|]. simpl.
  rewrite size_union_alt, size_singleton.
  assert (list_to_set l ∖ {[x]} ⊆ (list_to_set l : gset Z)) as Hsub.
  { intros y. rewrite elem_of_difference. tauto. }
  apply subseteq_size in Hsub. lia.
Qed.

Lemma real_labels_filter labels :
  real_labels labels = list_to_set (filter (λ x, x ≠ -1) labels).
Proof.
  apply set_eq. intros x.
  rewrite elem_of_real_labels, elem_of_list_to_set, list_elem_of_filter. tauto.
Qed.

Lemma clusters_le_valid labels :
  Z.of_nat (size (real_labels labels)) ≤ len (filter (λ x, x ≠ -1) labels).
Proof.
  rewrite real_labels_filter. unfold len.
  pose proof (size_list_to_set_le (filter (λ x, x ≠ -1) labels)). lia.
Qed.

End metrics_properties.

(** The three counts are stored before the viability test. *)
Lemma calculate_metrics_lookup_counts `{Sklearn} (X : matrix) (labels : list Z) :
  calculate_metrics X labels !! "n_clusters"
  = Some (VInt (Z.of_nat (size (real_labels labels))))
  ∧ calculate_metrics X labels !! "n_noise" = Some (VInt (count_noise labels))
  ∧ calculate_metrics X labels !! "noise_ratio" = Some (metrics_noise_ratio labels).
Proof.
  unfold calculate_metrics. rewrite count_clusters_real.
  destruct (_ && _); by simplify_map_eq.
Qed.

(** X7.  The metrics record always has exactly the six fields n_clusters,
    n_noise, noise_ratio, silhouette_score, davies_bouldin_score and
    calinski_harabasz_score, whichever branch is taken and whichever score
    computation raises. *)
Theorem calculate_metrics_fields `{Sklearn} (X : matrix) (labels : list Z) :
  dom (calculate_metrics X labels) = metric_names.
Proof.
  unfold calculate_metrics, metric_names.
  destruct (_ && _); rewrite !dom_insert_L, dom_empty_L; set_solver.
Qed.

(** X8.  The counts of the metrics record are consistent with the label
    assignment: n_clusters and n_noise are not negative and together do not
    exceed the number of rows (every cluster has at least one row), and for
    a non-empty assignment noise_ratio is the fraction n_noise / len(labels),
    between 0 and 1. *)
Theorem calculate_metrics_counts `{Sklearn} (X : matrix) (labels : list Z) :
  ∃ n_clusters n_noise,
    calculate_metrics X labels !! "n_clusters" = Some (VInt n_clusters)
    ∧ calculate_metrics X labels !! "n_noise" = Some (VInt n_noise)
    ∧ 0 ≤ n_clusters ∧ 0 ≤ n_noise
    ∧ n_clusters + n_noise ≤ len labels
    ∧ (labels ≠ [] →
       ∃ q, calculate_metrics X labels !! "noise_ratio" = Some (VFloat (Fin q))
            ∧ (q == inject_Z n_noise / inject_Z (len labels))%Q
            ∧ (0 <= q)%Q ∧ (q <= 1)%Q).
Proof.
  destruct (calculate_metrics_lookup_counts X labels) as (Hc & Hn & Hr).
  eexists _, _. split; [exact Hc|]. split; [exact Hn|].
  pose proof (clusters_le_valid labels) as Hcv.
  pose proof (length_filter_split labels (-1)) as Hsplit.
  unfold metrics_noise_ratio, count_noise, len in *.
  split; [lia|]. split; [lia|]. split; [lia|].
  intros Hne. assert (0 < length labels)%nat as Hpos by (destruct labels; [done|simpl; lia]).
  rewrite decide_True in Hr by lia.
  eexists. split; [exact Hr|]. split; [apply Qred_correct|].
  rewrite Qred_correct.
  set (n := length (filter (λ x, x = -1) labels)) in *.
  destruct (length labels) as [|m] eqn:Hl; [lia|].
  unfold Qle, Qdiv, Qmult, Qinv, inject_Z. simpl. lia.
Qed.

(** X9.  When the feature matrix and the label assignment do not have the
    same number of rows, selecting the non-outlier rows fails inside each
    guarded block, and the three scores are the failure values 0.0,
    +infinity and 0.0. *)
Theorem calculate_metrics_length_mismatch `{Sklearn} (X : matrix) (labels : list Z) :
  length X ≠ length labels →
  calculate_metrics X labels !! "silhouette_score" = Some (VFloat (Fin 0))
  ∧ calculate_metrics X labels !! "davies_bouldin_score" = Some (VFloat PosInf)
  ∧ calculate_metrics X labels !! "calinski_harabasz_score" = Some (VFloat (Fin 0)).
Proof.
  intros Hlen. unfold calculate_metrics.
  assert (Np.select X (Np.ne_mask labels (-1)) = None) as HX.
  { apply eq_None_not_Some. rewrite select_is_Some.
    unfold Np.ne_mask. by rewrite length_fmap. }
  rewrite HX. destruct (_ && _); by simplify_map_eq.
Qed.

(** X10.  When the assignment is viable (at least 2 clusters, at least
    twice as many non-outlier rows as clusters) and has one label per row,
    each score is computed on the non-outlier rows and their labels only;
    a score whose computation raises is replaced by its own failure value
    and leaves the other two as computed. *)
Theorem calculate_metrics_valid_rows `{Sklearn} (X : matrix) (labels : list Z) :
  length X = length labels →
  2 ≤ Z.of_nat (size (real_labels labels)) →
  2 * Z.of_nat (size (real_labels labels)) ≤ len (filter (λ x, x ≠ -1) labels) →
  calculate_metrics X labels !! "silhouette_score"
  = Some (VFloat (Fin (default 0%Q
       (silhouette_score (valid_rows X labels) (filter (λ x, x ≠ -1) labels)))))
  ∧ calculate_metrics X labels !! "davies_bouldin_score"
    = Some (VFloat (default PosInf
         (davies_bouldin_score (valid_rows X labels) (filter (λ x, x ≠ -1) labels))))
  ∧ calculate_metrics X labels !! "calinski_harabasz_score"
    = Some (VFloat (default (Fin 0)
         (calinski_harabasz_score (valid_rows X labels) (filter (λ x, x ≠ -1) labels)))).
Proof.
  intros Hlen Hc Hv. unfold calculate_metrics.
  rewrite sum_ne_mask, count_clusters_real.
  rewrite select_ne_mask. rewrite (select_valid_rows X labels) by done.
  rewrite !bool_decide_eq_true_2 by lia. simpl.
  destruct (silhouette_score _ _), (davies_bouldin_score _ _),
    (calinski_harabasz_score _ _); by simplify_map_eq.
Qed.

(** X11.  Search and evaluation agree: for a combination that the density
    search scored, the evaluator applied to the labels of that DBSCAN run
    reports the same silhouette score and the same number of clusters. *)
Theorem calculate_metrics_of_scored_candidate `{Sklearn} (X : matrix)
    (eps : Q) (min_samples : Z) (score : Q) (n_clusters : Z) :
  dbscan_candidate X eps min_samples = Some (Some (score, n_clusters)) →
  ∃ labels,
    DBSCAN_fit_predict eps min_samples X = Some labels
    ∧ calculate_metrics X labels !! "silhouette_score" = Some (VFloat (Fin score))
    ∧ calculate_metrics X labels !! "n_clusters" = Some (VInt n_clusters).
Proof.
  unfold dbscan_candidate.
  destruct (DBSCAN_fit_predict eps min_samples X) as [labels|]; [|done]. simpl.
  destruct (bool_decide (count_clusters labels >= 2)) eqn:Hn; [|done].
  destruct (bool_decide (dbscan_noise_ratio labels < 0.5)%Q); [|done]. simpl.
  apply bool_decide_eq_true in Hn.
  destruct (decide _) as [Hv|]; [|done].
  destruct (_ ≫= _) as [s|] eqn:Hs; [|done].
  intros [= <- <-]. exists labels. split; [done|].
  unfold calculate_metrics.
  rewrite !bool_decide_eq_true_2 by lia. simpl. rewrite Hs.
  by simplify_map_eq.
Qed.

(** * Price, discount and category cleaning: further properties *)

Section cleaning_properties.
Context `{Unicode} {F : Type} (fl : Q → F).

Lemma findall_no_digit fuel : ∀ s,
  forallb (λ c, negb (is_digit c)) s = true → findall_fuel fuel s = [].
Proof.
  induction fuel as [|fuel IH]; intros s Hs; [done|].
  destruct s as [|c s]; [done|]. simpl in Hs.
  apply andb_true_iff in Hs as [Hc Hs]. apply negb_true_iff in Hc.
  cbn [findall_fuel]. unfold match_number. simpl. rewrite Hc. by apply IH.
Qed.

Lemma forallb_filter {A} (P : A → Prop) `{!∀ x, Decision (P x)} (f : A → bool) l :
  forallb f l = true → forallb f (filter P l) = true.
Proof.
  induction l as [|x l IH]; [done|]. simpl. intros [Hx Hl]%andb_true_iff.
  destruct (decide (P x)).
  - rewrite filter_cons_True by done. simpl. by rewrite Hx, IH.
  - rewrite filter_cons_False by done. by apply IH.
Qed.

Lemma forallb_lstrip (f : char → bool) s :
  forallb f s = true → forallb f (lstrip s) = true.
Proof.
  induction s as [|c s IH]; [done|]. simpl. intros Hs.
  destruct (is_space c); [|done].
  apply andb_true_iff in Hs as [_ Hs]. by apply IH.
Qed.

Lemma forallb_reverse (f : char → bool) (s : pystr) :
  forallb f s = true → forallb f (reverse s) = true.
Proof.
  rewrite !forallb_forall. intros Hs c Hc. apply Hs.
  rewrite <-list_elem_of_In in *. by apply elem_of_reverse.
Qed.

Lemma forallb_price_text (f : char → bool) s :
  forallb f s = true → forallb f (price_text s) = true.
Proof.
  intros Hs. unfold price_text, strip, str_remove.
  apply forallb_reverse, forallb_lstrip, forallb_reverse, forallb_lstrip.
  by do 2 apply forallb_filter.
Qed.

Lemma decimal_value_nonneg d1 d2 : (0 <= decimal_value d1 d2)%Q.
Proof.
  unfold decimal_value. rewrite Qred_correct.
  assert (0 < 10 ^ Z.of_nat (length d2)) as Hpos by (apply Z.pow_pos_nonneg; lia).
  destruct (10 ^ Z.of_nat (length d2)) as [|p|p]; [lia| |lia].
  unfold Qle, Qdiv, Qmult, Qinv, inject_Z. simpl. lia.
Qed.

Lemma py_float_nonneg t :
  clean_numeric t → ∃ q, (0 <= q)%Q ∧ py_float fl t = Some (fl q).
Proof.
  intros (d1 & d2 & Hne & H1 & H2 & Ht).
  destruct (py_float_clean fl d1 d2 Hne H1 H2) as [Hf1 Hf2].
  destruct Ht as [-> | ->]; eexists; (split; [apply decimal_value_nonneg|done]).
Qed.

Lemma findall_value_nonneg s :
  ∃ q, (0 <= q)%Q
       ∧ match re_findall s with
         | t :: _ => py_float fl t
         | [] => Some (fl 0%Q)
         end = Some (fl q).
Proof.
  destruct (re_findall s) as [|t ts] eqn:Hf.
  - exists 0%Q. split; [apply Qle_refl|done].
  - apply py_float_nonneg. apply (findall_head_clean (length s) s).
    unfold re_findall in Hf. by rewrite Hf.
Qed.

(** The first match in a text that starts with non-digits, continues with a
    clean numeric string and then with a character that is neither a digit
    nor the dot. *)
Lemma match_number_prefix t c rest :
  clean_numeric t → is_digit c = false → c ≠ dot →
  match_number (t ++ c :: rest) = Some (t, c :: rest).
Proof.
  intros (d1 & d2 & Hne & H1 & H2 & Ht) Hc Hdot. unfold match_number.
  destruct Ht as [-> | ->].
  - rewrite take_digits_app by done. destruct d1 as [|x d1]; [done|].
    cbv beta iota. by destruct (decide (c = dot)).
  - rewrite <-app_assoc. cbn [app].
    rewrite take_digits_app; [|done|apply is_digit_dot].
    destruct d1 as [|x d1]; [done|]. cbv beta iota. rewrite decide_True by done.
    by rewrite take_digits_app.
Qed.

Lemma findall_skip pre : ∀ fuel s,
  forallb (λ c, negb (is_digit c)) pre = true →
  findall_fuel (length pre + fuel) (pre ++ s) = findall_fuel fuel s.
Proof.
  induction pre as [|c pre IH]; intros fuel s Hpre; [done|].
  simpl in Hpre. apply andb_true_iff in Hpre as [Hc Hpre]. apply negb_true_iff in Hc.
  simpl length. simpl app. cbn [findall_fuel Nat.add].
  unfold match_number. simpl. rewrite Hc. by apply IH.
Qed.

Lemma re_findall_first pre t c rest :
  forallb (λ c, negb (is_digit c)) pre = true →
  clean_numeric t → is_digit c = false → c ≠ dot →
  head (re_findall (pre ++ t ++ c :: rest)) = Some t.
Proof.
  intros Hpre Ht Hc Hdot. unfold re_findall. rewrite length_app.
  rewrite findall_skip by done.
  destruct Ht as (d1 & d2 & Hne & H1 & H2 & Ht).
  assert (clean_numeric t) as Hclean by (exists d1, d2; eauto).
  assert (∃ x t', t = x :: t') as (x & t' & ->).
  { destruct d1 as [|x d1]; [done|]. destruct Ht as [-> | ->]; simpl; eauto. }
  simpl length. change ((x :: t') ++ c :: rest) with (x :: (t' ++ c :: rest)).
  cbn [findall_fuel].
  change (x :: (t' ++ c :: rest)) with ((x :: t') ++ c :: rest).
  by rewrite match_number_prefix.
Qed.

End cleaning_properties.

(** X12.  Unparseable text is cleaned to 0.0: when the text contains no
    digit, [clean_price] and [clean_discount] both return 0.0. *)
Theorem clean_no_digit `{Unicode} {F : Type} (fl : Q → F) (s : pystr) :
  forallb (λ c, negb (is_digit c)) s = true →
  clean_price fl (Some s) = Some (fl 0%Q)
  ∧ clean_discount fl (Some s) = Some (fl 0%Q).
Proof.
  intros Hs. unfold clean_price, clean_discount, re_findall.
  rewrite findall_no_digit by (by apply forallb_price_text).
  by rewrite findall_no_digit.
Qed.

(** X13.  [clean_price] and [clean_discount] return on every input, and the
    value is the float of a rational that is not negative: a sign in front of
    the digits is not part of the number. *)
Theorem clean_nonnegative `{Unicode} {F : Type} (fl : Q → F) (input : option pystr) :
  (∃ q, (0 <= q)%Q ∧ clean_price fl input = Some (fl q))
  ∧ (∃ q, (0 <= q)%Q ∧ clean_discount fl input = Some (fl q)).
Proof.
  destruct input as [s|].
  - split; [apply (findall_value_nonneg fl (price_text s))|apply findall_value_nonneg].
  - split; exists 0%Q; (split; [apply Qle_refl|done]).
Qed.

(** X14.  [clean_discount] reads the first number only: for a text made of
    characters that are not digits, then a clean numeric string [t], then a
    character that is neither a digit nor the dot (a percent sign, say) and
    anything after it, the result is the float of [t]. *)
Theorem clean_discount_first_number `{Unicode} {F : Type} (fl : Q → F)
    (pre t rest : pystr) (c : char) :
  forallb (λ c, negb (is_digit c)) pre = true →
  clean_numeric t → is_digit c = false → c ≠ dot →
  clean_discount fl (Some (pre ++ t ++ c :: rest)) = py_float fl t
  ∧ clean_discount fl (Some t) = py_float fl t
  ∧ is_Some (py_float fl t).
Proof.
  intros Hpre Ht Hc Hdot.
  pose proof (re_findall_first pre t c rest Hpre Ht Hc Hdot) as Hh.
  pose proof (re_findall_clean t Ht) as Hh'.
  unfold clean_discount. split; [|split; [|by apply py_float_is_Some]].
  - destruct (re_findall (pre ++ t ++ c :: rest)); [done|]. by injection Hh as ->.
  - destruct (re_findall t); [done|]. by injection Hh' as ->.
Qed.

Section category_properties.

Lemma str_split_head sep s :
  ∃ p ps, str_split sep s = p :: ps
          ∧ (sep ∉ p)
          ∧ (ps = [] ∧ s = p ∨ ∃ rest, s = p ++ sep :: rest).
Proof.
  induction s as [|c s IH]; simpl.
  - exists [], []. split; [done|]. split; [by intros ?%elem_of_nil|by left].
  - destruct (decide (c = sep)) as [->|Hc].
    + exists [], (str_split sep s). split; [done|].
      split; [by intros ?%elem_of_nil|]. right. by exists s.
    + destruct IH as (p & ps & -> & Hp & Hs). exists (c :: p), ps.
      split; [done|]. split.
      * intros [?|?]%elem_of_cons; done.
      * destruct Hs as [[-> ->]|[rest ->]]; [by left|]. right. by exists rest.
Qed.

Lemma str_split_no_sep sep s : sep ∉ s → str_split sep s = [s].
Proof.
  induction s as [|c s IH]; [done|]. intros [Hc Hs]%not_elem_of_cons. simpl.
  rewrite decide_False by done. by rewrite IH.
Qed.

End category_properties.

(** X15.  [extract_main_category] returns "Unknown" for a missing value;
    for a text it returns the part before the first vertical bar: the result
    contains no bar, and the text is the result itself or the result followed
    by a bar and the rest.  The empty text gives the empty text, not
    "Unknown". *)
Theorem extract_main_category_prefix (s : pystr) :
  extract_main_category None = unknown
  ∧ (pipe ∉ extract_main_category (Some s))
  ∧ (s = extract_main_category (Some s)
     ∨ ∃ rest, s = extract_main_category (Some s) ++ pipe :: rest)
  ∧ extract_main_category (Some []) = [].
Proof.
  split; [done|]. unfold extract_main_category.
  destruct (str_split_head pipe s) as (p & ps & -> & Hp & Hs).
  split; [done|]. split; [|done].
  destruct Hs as [[_ ->]|Hs]; [by left|by right].
Qed.

(** X16.  [extract_main_category] is idempotent: applied to its own result
    it returns that result. *)
Theorem extract_main_category_idempotent (category_str : option pystr) :
  extract_main_category (Some (extract_main_category category_str))
  = extract_main_category category_str.
Proof.
  destruct category_str as [s|]; [|by vm_compute].
  unfold extract_main_category.
  destruct (str_split_head pipe s) as (p & ps & -> & Hp & _).
  by rewrite str_split_no_sep.
Qed.

(** * Feature preparation: properties *)

Section prepare_properties.
Context `{Frames}.

Lemma first_missing_spec features columns :
  match first_missing features columns with
  | Some f => f ∈ features ∧ f ∉ columns
  | None => ∀ f, f ∈ features → f ∈ columns
  end.
Proof.
  induction features as [|f features IH]; simpl.
  - intros f Hf. by apply elem_of_nil in Hf.
  - case_bool_decide as Hf.
    + destruct (first_missing features columns) as [g|].
      * destruct IH as [Hg Hng]. split; [|done]. apply elem_of_cons. by right.
      * intros g [->|Hg]%elem_of_cons; [done|by apply IH].
    + split; [|done]. apply elem_of_cons. by left.
Qed.

Lemma length_feature_frame df :
  length (feature_frame df).1 = length (feature_frame df).2.
Proof.
  unfold feature_frame. case_bool_decide; simpl; [|done].
  by rewrite !length_fmap.
Qed.

(** Selecting with a mask computed from the columns themselves. *)
Lemma select_by_columns (g : column → bool) (names : list string) (X : list column) :
  length X = length names →
  Np.select X (g <$> X)
  = Some (filter (λ p, g p.2 = true) (zip names X)).*2
  ∧ select_names names (g <$> X)
    = Some (filter (λ p, g p.2 = true) (zip names X)).*1
  ∧ (Np.sum (g <$> X) = 0 ↔ filter (λ p, g p.2 = true) (zip names X) = []).
Proof.
  revert names. induction X as [|c X IH]; intros [|n names] Hlen; simpl in Hlen;
    try done.
  destruct (IH names) as (IH1 & IH2 & IH3); [lia|].
  rewrite fmap_cons. cbn [Np.select select_names zip zip_with].
  rewrite IH1, IH2. cbn [mbind option_bind]. unfold Np.sum in *.
  destruct (g c) eqn:Hg.
  - rewrite (filter_cons_True (λ p : string * column, g p.2 = true)) by done.
    rewrite (filter_cons_True (λ b : bool, b = true)) by done.
    split; [done|]. split; [done|]. split; [simpl; lia|done].
  - rewrite (filter_cons_False (λ p : string * column, g p.2 = true))
      by (simpl; congruence).
    rewrite (filter_cons_False (λ b : bool, b = true)) by done.
    done.
Qed.

Lemma nan_to_num_finite (c : column) v :
  v ∈ nan_to_num <$> c → ∃ q, v = Fin q.
Proof.
  intros (w & -> & _)%list_elem_of_fmap. destruct w; simpl; eauto.
Qed.

Lemma existsb_false_finite (X : list column) c v :
  existsb (existsb isnan) X || existsb (existsb isinf) X = false →
  c ∈ X → v ∈ c → ∃ q, v = Fin q.
Proof.
  intros [Hnan Hinf]%orb_false_iff Hc Hv.
  destruct v as [q| | |]; [eauto| | |]; exfalso.
  - assert (existsb (existsb isinf) X = true); [|congruence].
    apply existsb_exists. exists c. split; [by apply list_elem_of_In|].
    apply existsb_exists. exists PosInf. split; [by apply list_elem_of_In|done].
  - assert (existsb (existsb isinf) X = true); [|congruence].
    apply existsb_exists. exists c. split; [by apply list_elem_of_In|].
    apply existsb_exists. exists NegInf. split; [by apply list_elem_of_In|done].
  - assert (existsb (existsb isnan) X = true); [|congruence].
    apply existsb_exists. exists c. split; [by apply list_elem_of_In|].
    apply existsb_exists. exists NaN. split; [by apply list_elem_of_In|done].
Qed.

(** The run of [prepare_features] once the required columns are there. *)
Lemma prepare_features_run self df :
  first_missing required_features (df_columns df) = None →
  prepare_features self df
  = let kept := filter varying (candidates df) in
    if decide (kept = []) then (self, inl ZeroVariance)
    else
      match scaler_fit_transform kept.*2 with
      | Some X_scaled =>
          ({| scaler := Fitted kept.*2; feature_names := kept.*1 |},
           inr (if existsb (existsb isnan) X_scaled || existsb (existsb isinf) X_scaled
                then (λ c : column, nan_to_num <$> c) <$> X_scaled
                else X_scaled, kept.*1))
      | None => ({| scaler := Unfitted; feature_names := kept.*1 |}, inl ScalerError)
      end.
Proof.
  intros Hreq. unfold prepare_features. rewrite Hreq.
  unfold candidates. pose proof (length_feature_frame df) as Hlen.
  destruct (feature_frame df) as [df_work names]. simpl in *.
  rewrite <-list_fmap_compose.
  destruct (select_by_columns (λ c, pyfloat_gt (np_var c) variance_threshold)
              names (fillna0 <$> df_work)) as (HX & Hn & Hz).
  { by rewrite length_fmap. }
  unfold compose. cbv zeta.
  change (filter varying (zip names (fillna0 <$> df_work)))
    with (filter (λ p : string * column, pyfloat_gt (np_var p.2) variance_threshold = true)
            (zip names (fillna0 <$> df_work))).
  destruct (decide (Np.sum _ = 0)) as [Hsum|Hsum].
  - by rewrite decide_True by (by apply Hz).
  - rewrite decide_False by (by rewrite <-Hz).
    rewrite HX, Hn. by destruct (scaler_fit_transform _).
Qed.

End prepare_properties.

(** X17.  [prepare_features] checks the two mandatory columns first, in
    the order avg_price, avg_discount: when one is missing the call fails
    naming the first missing one and leaves the preprocessor as it was; and
    it fails that way only for a mandatory column that is missing. *)
Theorem prepare_features_missing_feature `{Frames}
    (self : preprocessor) (df : DataFrame) :
  ("avg_price" ∉ df_columns df →
     prepare_features self df = (self, inl (MissingFeature "avg_price")))
  ∧ ("avg_price" ∈ df_columns df → ("avg_discount" ∉ df_columns df) →
     prepare_features self df = (self, inl (MissingFeature "avg_discount")))
  ∧ (∀ self' feature,
       prepare_features self df = (self', inl (MissingFeature feature)) →
       feature ∈ required_features ∧ (feature ∉ df_columns df) ∧ self' = self).
Proof.
  split; [|split].
  - intros Hp. unfold prepare_features. simpl.
    by rewrite bool_decide_eq_false_2.
  - intros Hp Hd. unfold prepare_features. simpl.
    rewrite bool_decide_eq_true_2 by done. by rewrite bool_decide_eq_false_2.
  - intros self' feature Hrun.
    pose proof (first_missing_spec required_features (df_columns df)) as Hspec.
    destruct (first_missing required_features (df_columns df)) as [f|] eqn:Hf.
    + unfold prepare_features in Hrun. rewrite Hf in Hrun.
      injection Hrun as <- <-. tauto.
    + rewrite (prepare_features_run self df Hf) in Hrun. cbv zeta in Hrun.
      destruct (decide _); [done|]. by destruct (scaler_fit_transform _).
Qed.

(** X18.  Whatever the scaler returns, every entry of the array returned
    by [prepare_features] is a finite float: neither NaN nor an infinity. *)
Theorem prepare_features_finite `{Frames} (self self' : preprocessor)
    (df : DataFrame) (X_scaled : list column) (names : list string) :
  prepare_features self df = (self', inr (X_scaled, names)) →
  ∀ c v, c ∈ X_scaled → v ∈ c → ∃ q, v = Fin q.
Proof.
  intros Hrun c v Hc Hv.
  destruct (first_missing required_features (df_columns df)) as [f|] eqn:Hf.
  { unfold prepare_features in Hrun. by rewrite Hf in Hrun. }
  rewrite (prepare_features_run self df Hf) in Hrun. cbv zeta in Hrun.
  destruct (decide _); [done|].
  destruct (scaler_fit_transform _) as [Xs|]; [|done].
  injection Hrun as <- <- <-.
  destruct (existsb (existsb isnan) Xs || existsb (existsb isinf) Xs) eqn:Hbad.
  - apply list_elem_of_fmap in Hc as (c' & -> & _). by eapply nan_to_num_finite.
  - by eapply existsb_false_finite.
Qed.

(** X19.  With both mandatory columns present, [prepare_features] keeps
    exactly the candidate features whose variance (after filling missing
    entries with 0) is above 1e-8, in their order.  When none passes it fails
    with the zero-variance error and leaves the preprocessor as it was.
    Otherwise the names of the kept features are stored in the preprocessor,
    the scaler is applied to the kept columns, and on success the returned
    names are the kept names; the index error of the name selection never
    occurs. *)
Theorem prepare_features_kept `{Frames} (self : preprocessor) (df : DataFrame) :
  "avg_price" ∈ df_columns df → "avg_discount" ∈ df_columns df →
  (Forall (λ p, pyfloat_gt (np_var p.2) variance_threshold = false) (candidates df)
   ∧ prepare_features self df = (self, inl ZeroVariance))
  ∨ (∃ p, p ∈ candidates df ∧ pyfloat_gt (np_var p.2) variance_threshold = true)
    ∧ ∃ self' r,
        prepare_features self df = (self', r)
        ∧ feature_names self'
          = (filter (λ p, pyfloat_gt (np_var p.2) variance_threshold = true)
               (candidates df)).*1
        ∧ feature_names self' ≠ []
        ∧ (r = inl ScalerError ∧ scaler self' = Unfitted
           ∨ ∃ X_scaled, r = inr (X_scaled, feature_names self')
               ∧ scaler self'
                 = Fitted (filter (λ p, pyfloat_gt (np_var p.2) variance_threshold = true)
                             (candidates df)).*2).
Proof.
  intros Hp Hd.
  assert (first_missing required_features (df_columns df) = None) as Hf.
  { simpl. by rewrite !bool_decide_eq_true_2. }
  rewrite (prepare_features_run self df Hf). cbv zeta.
  change (filter varying (candidates df))
    with (filter (λ p : string * column, pyfloat_gt (np_var p.2) variance_threshold = true)
            (candidates df)).
  set (kept := filter _ (candidates df)).
  destruct (decide (kept = [])) as [Hnil|Hne].
  - left. split; [|done]. apply Forall_forall. intros p Hin.
    destruct (pyfloat_gt (np_var p.2) variance_threshold) eqn:Hg; [|done].
    exfalso. eapply (filter_nil_not_elem_of _ _ p Hnil); done.
  - right. split.
    + destruct kept as [|p kept'] eqn:Hk; [done|]. exists p.
      assert (p ∈ kept) as Hin by (rewrite Hk; apply elem_of_cons; by left).
      apply list_elem_of_filter in Hin. tauto.
    + destruct (scaler_fit_transform kept.*2) as [Xs|].
      * eexists _, _. split; [done|]. simpl. split; [done|].
        split; [by destruct kept|]. right. eauto.
      * eexists _, _. split; [done|]. simpl. split; [done|].
        split; [by destruct kept|]. by left.
Qed.

(** * The callers of the searches, and the pipeline of main.py *)

(** X20.  [apply_kmeans] returns the labels of the final KMeans run at the
    count it reports.  A supplied count is used as it is; without one, the
    reported count is between 2 and 10, and when it is not 2 it is below half
    the number of rows. *)
Theorem apply_kmeans_result `{Sklearn} (X : matrix) (n_clusters : option Z)
    (labels : list Z) (n : Z) :
  apply_kmeans X n_clusters = Some (labels, n) →
  KMeans_fit_predict n X = Some labels
  ∧ (∀ n', n_clusters = Some n' → n = n')
  ∧ (n_clusters = None → 2 ≤ n ≤ 10 ∧ (n = 2 ∨ 2 * n < len X - 1)).
Proof.
  unfold apply_kmeans. destruct n_clusters as [n0|]; simpl.
  - destruct (KMeans_fit_predict n0 X) as [l|] eqn:Hl; [|done].
    simpl. intros [= <- <-]. split; [done|]. split; [by intros ? [= <-]|done].
  - destruct (find_optimal_k_cases X default_k_range) as (k & Hk & Hcase).
    rewrite Hk. simpl.
    destruct (KMeans_fit_predict k X) as [l|] eqn:Hl; [|done].
    simpl. intros [= <- <-]. split; [done|]. split; [done|]. intros _.
    destruct Hcase as [->|Hin]; simpl; [lia|].
    apply elem_of_k_values in Hin. simpl in Hin.
    assert (0 ≤ len X) by (unfold len; lia).
    pose proof (Z.div_mod (len X) 2). pose proof (Z.mod_pos_bound (len X) 2). lia.
Qed.

(** X21.  [apply_dbscan] returns the labels of the final DBSCAN run at the
    parameters it reports.  When both parameters are supplied they are the
    ones reported; otherwise the reported pair is the result of the search
    (so (0.8, 5) or a scored grid combination), and a parameter supplied
    alone is not used. *)
Theorem apply_dbscan_result `{Sklearn} (X : matrix) (eps : option Q)
    (min_samples : option Z) (labels : list Z) (p : Q * Z) :
  apply_dbscan X eps min_samples = Some (labels, p) →
  DBSCAN_fit_predict p.1 p.2 X = Some labels
  ∧ (∀ e m, eps = Some e → min_samples = Some m → p = (e, m))
  ∧ (eps = None ∨ min_samples = None →
     find_optimal_dbscan_params X = Some p
     ∧ (p = (0.8%Q, 5) ∨ p.1 ∈ eps_range ∧ p.2 ∈ min_samples_range)).
Proof.
  intros Hrun.
  assert (∀ r, find_optimal_dbscan_params X = Some r →
               r = (0.8%Q, 5) ∨ r.1 ∈ eps_range ∧ r.2 ∈ min_samples_range) as Hgrid.
  { intros [e m] Hr.
    destruct (proj2 (find_optimal_dbscan_params_grid X) e m Hr)
      as [?|(He & Hm)]; [by left|by right]. }
  unfold apply_dbscan in Hrun.
  destruct eps as [e|], min_samples as [m|]; simpl in Hrun.
  - destruct (DBSCAN_fit_predict e m X) as [l|] eqn:Hl; [|done].
    injection Hrun as <- <-. split; [done|].
    split; [by intros ? ? [= <-] [= <-]|]. by intros [?|?].
  - destruct (find_optimal_dbscan_params X) as [r|] eqn:Hr; [|done]. simpl in Hrun.
    destruct (DBSCAN_fit_predict r.1 r.2 X) as [l|] eqn:Hl; [|done].
    injection Hrun as <- <-. split; [done|]. split; [done|]. intros _.
    split; [done|by apply Hgrid].
  - destruct (find_optimal_dbscan_params X) as [r|] eqn:Hr; [|done]. simpl in Hrun.
    destruct (DBSCAN_fit_predict r.1 r.2 X) as [l|] eqn:Hl; [|done].
    injection Hrun as <- <-. split; [done|]. split; [done|]. intros _.
    split; [done|by apply Hgrid].
  - destruct (find_optimal_dbscan_params X) as [r|] eqn:Hr; [|done]. simpl in Hrun.
    destruct (DBSCAN_fit_predict r.1 r.2 X) as [l|] eqn:Hl; [|done].
    injection Hrun as <- <-. split; [done|]. split; [done|]. intros _.
    split; [done|by apply Hgrid].
Qed.

(** X22.  Evaluator and normaliser agree on the number of clusters, as
    main.py uses them on the same raw labels: with [n_clusters] the count in
    the metrics record, the normalised labels are exactly 1, ..., n_clusters,
    and n_clusters + 1 as well when there are outliers; every outlier row
    carries n_clusters + 1 and every other row a label up to n_clusters. *)
Theorem normalized_labels_match_metrics `{Sklearn} (X : matrix) (labels : list Z) :
  ∃ out n_clusters,
    normalize_list labels = Some out
    ∧ calculate_metrics X labels !! "n_clusters" = Some (VInt n_clusters)
    ∧ (list_to_set out : gset Z)
      = list_to_set (seqZ 1 (n_clusters + (if decide (-1 ∈ labels) then 1 else 0)))
    ∧ (∀ i x a, labels !! i = Some x → out !! i = Some a →
                (x = -1 → a = n_clusters + 1) ∧ (x ≠ -1 → 1 ≤ a ≤ n_clusters)).
Proof.
  destruct (calculate_metrics_lookup_counts X labels) as (Hc & _).
  exists (canonical_label labels <$> labels), (Z.of_nat (size (real_labels labels))).
  split; [apply normalize_list_spec|]. split; [exact Hc|]. split.
  - rewrite normalized_labels_set. by rewrite size_labels.
  - intros i x a Hi Ha. rewrite list_lookup_fmap, Hi in Ha. injection Ha as <-.
    assert (x ∈ labels) as Hx by (by eapply list_elem_of_lookup_2).
    split.
    + intros ->. unfold canonical_label. by rewrite decide_True.
    + intros Hx1. pose proof (canonical_label_noise_max labels x Hx Hx1) as Hlt.
      pose proof (canonical_label_range labels x Hx) as [Hge _].
      unfold canonical_label in Hlt at 2. rewrite decide_True in Hlt by done. lia.
Qed.

(** * Further runs on concrete inputs *)

Lemma normalize_list_same_cluster_witness :
  [5; 5; 2; -1; 2] !! 0%nat = Some 5 ∧ [5; 5; 2; -1; 2] !! 1%nat = Some 5
  ∧ (2 = 2 ↔ 5 = 5).
Proof.
  split; [reflexivity|]. split; [reflexivity|].
  destruct (normalize_list_same_cluster [5; 5; 2; -1; 2]) as (out & Hout & _ & Hsame).
  vm_compute in Hout. injection Hout as <-.
  apply (Hsame 0%nat 1%nat 5 5 2 2); reflexivity.
Defined.

Lemma normalize_list_order_witness :
  [5; 5; 2; -1; 2] !! 2%nat = Some 2 ∧ [5; 5; 2; -1; 2] !! 0%nat = Some 5
  ∧ (1 < 2 ↔ 2 < 5).
Proof.
  split; [reflexivity|]. split; [reflexivity|].
  destruct (normalize_list_order [5; 5; 2; -1; 2]) as (out & Hout & Horder).
  vm_compute in Hout. injection Hout as <-.
  apply (Horder 2%nat 0%nat 2 5 1 2); try reflexivity; lia.
Defined.

Lemma find_optimal_k_highest_score_witness :
  (0 <= kmeans_candidate_score (H:=sklearn_round_robin) (rows 8) 2)%Q
  ∧ ∃ k, find_optimal_k (H:=sklearn_round_robin) (rows 8) default_k_range = Some k
         ∧ k ∈ k_values default_k_range (rows 8).
Proof.
  assert (0 <= kmeans_candidate_score (H:=sklearn_round_robin) (rows 8) 2)%Q
    as Hpos by (by vm_compute).
  split; [exact Hpos|].
  destruct (find_optimal_k_highest_score (H:=sklearn_round_robin) (rows 8) default_k_range)
    as (k & Hk & Hin & _).
  - exists 2. split; [|exact Hpos]. apply elem_of_k_values. by vm_compute.
  - exists k. split; [exact Hk|exact Hin].
Defined.

Lemma find_optimal_dbscan_params_result_witness :
  find_optimal_dbscan_params (H:=sklearn_all_noise) (rows 4) = Some (0.8%Q, 5)
  ∧ ((0.8%Q, 5) = (0.8%Q, 5)
     ∨ ∃ score nc,
         0.8%Q ∈ eps_range ∧ 5 ∈ min_samples_range
         ∧ dbscan_candidate (H:=sklearn_all_noise) (rows 4) 0.8 5
           = Some (Some (score, nc))
         ∧ (-1 < score)%Q
         ∧ ∀ eps' ms' score' nc',
             eps' ∈ eps_range → ms' ∈ min_samples_range →
             dbscan_candidate (H:=sklearn_all_noise) (rows 4) eps' ms'
             = Some (Some (score', nc')) →
             (score' < score)%Q ∨ ((score' == score)%Q ∧ nc' ≤ nc)).
Proof.
  assert (find_optimal_dbscan_params (H:=sklearn_all_noise) (rows 4) = Some (0.8%Q, 5))
    as Hrun by (vm_compute; reflexivity).
  split; [exact Hrun|].
  exact (proj2 (find_optimal_dbscan_params_result (H:=sklearn_all_noise) (rows 4))
           _ _ Hrun).
Defined.

Lemma calculate_metrics_counts_witness :
  [0; -1; 1; 0] ≠ []
  ∧ ∃ n_clusters n_noise,
      calculate_metrics (H:=sklearn_round_robin) (rows 4) [0; -1; 1; 0] !! "n_clusters"
      = Some (VInt n_clusters)
      ∧ calculate_metrics (H:=sklearn_round_robin) (rows 4) [0; -1; 1; 0] !! "n_noise"
        = Some (VInt n_noise)
      ∧ n_clusters + n_noise ≤ len [0; -1; 1; 0]
      ∧ ∃ q, calculate_metrics (H:=sklearn_round_robin) (rows 4) [0; -1; 1; 0]
               !! "noise_ratio" = Some (VFloat (Fin q))
             ∧ (0 <= q)%Q ∧ (q <= 1)%Q.
Proof.
  split; [discriminate|].
  destruct (calculate_metrics_counts (H:=sklearn_round_robin) (rows 4) [0; -1; 1; 0])
    as (nc & nn & Hc & Hn & _ & _ & Hle & Hratio).
  exists nc, nn. split; [exact Hc|]. split; [exact Hn|]. split; [exact Hle|].
  destruct Hratio as (q & Hq & _ & H0 & H1); [discriminate|].
  exists q. split; [exact Hq|]. split; [exact H0|exact H1].
Defined.

Lemma calculate_metrics_length_mismatch_witness :
  length (rows 3) ≠ length [0; 0; 1; 1]
  ∧ calculate_metrics (H:=sklearn_round_robin) (rows 3) [0; 0; 1; 1] !! "silhouette_score"
    = Some (VFloat (Fin 0)).
Proof.
  assert (length (rows 3) ≠ length [0; 0; 1; 1]) as Hne by (simpl; lia).
  split; [exact Hne|].
  exact (proj1 (calculate_metrics_length_mismatch (H:=sklearn_round_robin)
                  (rows 3) [0; 0; 1; 1] Hne)).
Defined.

Lemma calculate_metrics_valid_rows_witness :
  calculate_metrics (H:=sklearn_round_robin) (rows 5) [0; 1; -1; 0; 1] !! "silhouette_score"
  = Some (VFloat (Fin (default 0%Q
       (silhouette_score (Sklearn:=sklearn_round_robin)
          (valid_rows (rows 5) [0; 1; -1; 0; 1])
          (filter (λ x, x ≠ -1) [0; 1; -1; 0; 1]))))).
Proof.
  apply (calculate_metrics_valid_rows (H:=sklearn_round_robin) (rows 5) [0; 1; -1; 0; 1]).
  - reflexivity.
  - by vm_compute.
  - by vm_compute.
Defined.

Lemma calculate_metrics_of_scored_candidate_witness :
  ∃ labels,
    DBSCAN_fit_predict (Sklearn:=sklearn_round_robin) 0.3 3 (rows 4) = Some labels
    ∧ calculate_metrics (H:=sklearn_round_robin) (rows 4) labels !! "silhouette_score"
      = Some (VFloat (Fin 0.5))
    ∧ calculate_metrics (H:=sklearn_round_robin) (rows 4) labels !! "n_clusters"
      = Some (VInt 2).
Proof.
  apply (calculate_metrics_of_scored_candidate (H:=sklearn_round_robin)
           (rows 4) 0.3%Q 3 0.5%Q 2).
  reflexivity.
Defined.

(** The texts "n/a", "-64%" with its parts, as code points. *)
Lemma clean_no_digit_witness :
  clean_price (H:=ascii_unicode) (λ q, q) (Some [110; 47; 97]%N) = Some 0%Q
  ∧ clean_discount (H:=ascii_unicode) (λ q, q) (Some [110; 47; 97]%N) = Some 0%Q.
Proof.
  apply (clean_no_digit (H:=ascii_unicode) (λ q, q) [110; 47; 97]%N).
  reflexivity.
Defined.

Lemma clean_discount_first_number_witness :
  clean_discount (H:=ascii_unicode) (λ q, q) (Some ([45] ++ [54; 52] ++ 37 :: [])%N)
  = py_float (H:=ascii_unicode) (λ q, q) [54; 52]%N.
Proof.
  apply (clean_discount_first_number (H:=ascii_unicode) (λ q, q)
           [45]%N [54; 52]%N [] 37%N).
  - reflexivity.
  - exists [54; 52]%N, []. split; [discriminate|].
    split; [reflexivity|]. split; [reflexivity|]. by left.
  - reflexivity.
  - discriminate.
Defined.

Lemma prepare_features_missing_feature_witness :
  ("avg_price" ∉ df_columns (Frames:=frames_plain) [("avg_discount", [Fin 1; Fin 2])])
  ∧ prepare_features (H:=frames_plain) {| scaler := NoScaler; feature_names := [] |}
      [("avg_discount", [Fin 1; Fin 2])]
    = ({| scaler := NoScaler; feature_names := [] |},
       inl (MissingFeature "avg_price")).
Proof.
  assert ("avg_price" ∉ df_columns (Frames:=frames_plain) [("avg_discount", [Fin 1; Fin 2])])
    as Hmiss.
  { simpl. intros Hin. apply list_elem_of_singleton in Hin. discriminate. }
  split; [exact Hmiss|].
  exact (proj1 (prepare_features_missing_feature (H:=frames_plain) _ _) Hmiss).
Defined.

Lemma prepare_features_finite_witness :
  prepare_features (H:=frames_plain) {| scaler := NoScaler; feature_names := [] |}
    [("avg_price", [Fin 1; Fin 3]); ("avg_discount", [Fin 1; Fin 2])]
  = ({| scaler := Fitted [[Fin 1; Fin 3]; [Fin 1; Fin 2]];
        feature_names := ["avg_price"; "avg_discount"] |},
     inr ([[Fin 1; Fin 3]; [Fin 1; Fin 2]], ["avg_price"; "avg_discount"]))
  ∧ ∀ c v, c ∈ [[Fin 1; Fin 3]; [Fin 1; Fin 2]] → v ∈ c → ∃ q, v = Fin q.
Proof.
  assert (prepare_features (H:=frames_plain) {| scaler := NoScaler; feature_names := [] |}
            [("avg_price", [Fin 1; Fin 3]); ("avg_discount", [Fin 1; Fin 2])]
          = ({| scaler := Fitted [[Fin 1; Fin 3]; [Fin 1; Fin 2]];
                feature_names := ["avg_price"; "avg_discount"] |},
             inr ([[Fin 1; Fin 3]; [Fin 1; Fin 2]], ["avg_price"; "avg_discount"])))
    as Hrun by (vm_compute; reflexivity).
  split; [exact Hrun|].
  exact (prepare_features_finite (H:=frames_plain) _ _ _ _ _ Hrun).
Defined.

Lemma prepare_features_kept_witness :
  "avg_price" ∈ df_columns (Frames:=frames_plain)
                  [("avg_price", [Fin 1; Fin 1]); ("avg_discount", [Fin 1; Fin 2])]
  ∧ ∃ self' r,
      prepare_features (H:=frames_plain) {| scaler := NoScaler; feature_names := [] |}
        [("avg_price", [Fin 1; Fin 1]); ("avg_discount", [Fin 1; Fin 2])] = (self', r)
      ∧ feature_names self' = ["avg_discount"].
Proof.
  assert ("avg_price" ∈ df_columns (Frames:=frames_plain)
            [("avg_price", [Fin 1; Fin 1]); ("avg_discount", [Fin 1; Fin 2])]) as Hp.
  { simpl. apply elem_of_cons. by left. }
  split; [exact Hp|].
  destruct (prepare_features_kept (H:=frames_plain)
              {| scaler := NoScaler; feature_names := [] |}
              [("avg_price", [Fin 1; Fin 1]); ("avg_discount", [Fin 1; Fin 2])] Hp)
    as [[_ Hzero]|(_ & self' & r & Hrun & Hnames & _)].
  - simpl. apply elem_of_cons. right. apply elem_of_cons. by left.
  - vm_compute in Hzero. discriminate.
  - exists self', r. split; [exact Hrun|]. rewrite Hnames. reflexivity.
Defined.

Lemma apply_kmeans_result_witness :
  apply_kmeans (H:=sklearn_round_robin) (rows 8) None
  = Some ([0; 1; 0; 1; 0; 1; 0; 1], 2)
  ∧ KMeans_fit_predict (Sklearn:=sklearn_round_robin) 2 (rows 8)
    = Some [0; 1; 0; 1; 0; 1; 0; 1].
Proof.
  assert (apply_kmeans (H:=sklearn_round_robin) (rows 8) None
          = Some ([0; 1; 0; 1; 0; 1; 0; 1], 2)) as Hrun by (vm_compute; reflexivity).
  split; [exact Hrun|].
  exact (proj1 (apply_kmeans_result (H:=sklearn_round_robin) _ _ _ _ Hrun)).
Defined.

Lemma apply_dbscan_result_witness :
  apply_dbscan (H:=sklearn_all_noise) (rows 4) (Some 0.3%Q) None
  = Some ([-1; -1; -1; -1], (0.8%Q, 5))
  ∧ DBSCAN_fit_predict (Sklearn:=sklearn_all_noise) 0.8 5 (rows 4)
    = Some [-1; -1; -1; -1].
Proof.
  assert (apply_dbscan (H:=sklearn_all_noise) (rows 4) (Some 0.3%Q) None
          = Some ([-1; -1; -1; -1], (0.8%Q, 5))) as Hrun by (vm_compute; reflexivity).
  split; [exact Hrun|].
  exact (proj1 (apply_dbscan_result (H:=sklearn_all_noise) _ _ _ _ _ Hrun)).
Defined.

Lemma normalized_labels_match_metrics_witness :
  [3; -1; 7; 3] !! 1%nat = Some (-1)
  ∧ ∃ out n_clusters,
      normalize_list [3; -1; 7; 3] = Some out
      ∧ calculate_metrics (H:=sklearn_round_robin) (rows 4) [3; -1; 7; 3] !! "n_clusters"
        = Some (VInt n_clusters)
      ∧ out !! 1%nat = Some (n_clusters + 1).
Proof.
  split; [reflexivity|].
  destruct (normalized_labels_match_metrics (H:=sklearn_round_robin) (rows 4) [3; -1; 7; 3])
    as (out & nc & Hout & Hnc & _ & Hrows).
  exists out, nc. split; [exact Hout|]. split; [exact Hnc|].
  assert (is_Some (out !! 1%nat)) as [a Ha].
  { vm_compute in Hout. injection Hout as <-. by eexists. }
  rewrite Ha. f_equal.
  apply (proj1 (Hrows 1%nat (-1) a eq_refl Ha)). reflexivity.
Defined.

Lemma normalize_list_dense_witness :
  ∃ out, normalize_list [5; 5; 2; -1; 2] = Some out
    ∧ (list_to_set out : gset Z) = list_to_set (seqZ 1 3)
    ∧ (-1 ∉ out) ∧ (0 ∉ out).
Proof. exact (normalize_list_dense [5; 5; 2; -1; 2]). Defined.

(** The text "Electronics|Phones" as code points yields "Electronics". *)
Lemma extract_main_category_prefix_witness :
  (pipe ∉ extract_main_category
            (Some [69; 108; 101; 99; 116; 114; 111; 110; 105; 99; 115; 124;
                   80; 104; 111; 110; 101; 115]%N))
  ∧ extract_main_category
      (Some [69; 108; 101; 99; 116; 114; 111; 110; 105; 99; 115; 124;
             80; 104; 111; 110; 101; 115]%N)
    = [69; 108; 101; 99; 116; 114; 111; 110; 105; 99; 115]%N.
Proof.
  split; [|reflexivity].
  exact (proj1 (proj2 (extract_main_category_prefix _))).
Defined.

(** * Feature preparation: variance and finiteness of the result *)

Section scaled_variance.
Context `{FloatSqrt}.












Lemma finite_values_Some (c : column) (l : list Q) :
  finite_values c = Some l → c = Fin <$> l.
Proof.
  unfold finite_values. revert l. induction c as [|v c IH]; intros l Hl; simpl in Hl.
  - by injection Hl as <-.
  - destruct v as [q| | |]; simpl in Hl; try done.
    destruct (mapM finite_value c) as [l'|]; simpl in Hl; [|done].
    injection Hl as <-. rewrite fmap_cons. by rewrite (IH l' eq_refl).
Qed.





End scaled_variance.




